(** * BrickWall: a shallow embedding of [src/BrickWall/BrickWall.py]

    The wall is a matrix [list (list Z)] of brick lengths.  Python's mutable
    rows become explicit state passing: every method that mutates the wall
    returns the new wall.  The pseudo-random generator is a finite supply of
    raw integers ([draws]); every call of [randint] (and every step of
    [shuffle]) consumes one of them.  A computation that needs more draws
    than the supply holds answers [Starved]: an endless run of the Python
    loop is a run that is starved on every finite prefix of its draw
    sequence. *)

From Stdlib Require Import ZArith List Bool Lia String Ascii Permutation Arith.
Import ListNotations.
Local Open Scope Z_scope.

(** ** Exceptions and outcomes *)

Inductive exn : Type :=
| TypeError_wall          (* "The wall must be list of lists of integers" *)
| ValueError_sign         (* "`crossline_sign` argument must be 1 character long" *)
| ValueError_rows         (* "The wall must consists of at least one row" *)
| ValueError_row_length   (* "The  row length must be greater than 3 ..." *)
| ValueError_edges        (* "The line can not cross the wall at its edges. ..." *)
| ValueError_max_empty    (* builtin max() on an empty list *)
| ValueError_randrange    (* randint(a, b) with b < a *)
| IndexError_list         (* list index out of range *)
| NameError_wall.         (* the global name `wall` is not defined *)

Definition is_ValueError (e : exn) : bool :=
  match e with
  | ValueError_sign | ValueError_rows | ValueError_row_length
  | ValueError_edges | ValueError_max_empty | ValueError_randrange => true
  | _ => false
  end.

Inductive outcome (A : Type) : Type :=
| Ok (a : A)
| Raise (e : exn)
| Starved.
Arguments Ok {A} a.
Arguments Raise {A} e.
Arguments Starved {A}.

Definition bind {A B} (m : outcome A) (k : A -> outcome B) : outcome B :=
  match m with
  | Ok a => k a
  | Raise e => Raise e
  | Starved => Starved
  end.

Notation "x <- m ;; k" := (bind m (fun x => k))
  (at level 61, m at next level, right associativity).
Notation "' pat <- m ;; k" := (bind m (fun x => match x with pat => k end))
  (at level 61, pat pattern, m at next level, right associativity).

(** ** Python builtins used by the class *)

Definition len {A} (l : list A) : Z := Z.of_nat (List.length l).

(** [sum(row)] *)
Definition sum (row : list Z) : Z := fold_left Z.add row 0.

(** [l[i]] with Python's negative indices; [None] stands for IndexError. *)
Definition getitem {A} (l : list A) (i : Z) : option A :=
  if (0 <=? i) && (i <? len l) then nth_error l (Z.to_nat i)
  else if (- len l <=? i) && (i <? 0) then nth_error l (Z.to_nat (len l + i))
  else None.

(** [range(a, b)] *)
Definition range (a b : Z) : list Z :=
  map (fun k => a + Z.of_nat k) (seq 0 (Z.to_nat (b - a))).

(** [max(l)] on a list of integers *)
Definition py_max (l : list Z) : outcome Z :=
  match l with
  | [] => Raise ValueError_max_empty
  | x :: rest => Ok (fold_left Z.max rest x)
  end.

(** [[f(i) for i in idxs]] where [f] may raise *)
Fixpoint comprehension {A B} (f : A -> outcome B) (idxs : list A) : outcome (list B) :=
  match idxs with
  | [] => Ok []
  | i :: rest => v <- f i ;; vs <- comprehension f rest ;; Ok (v :: vs)
  end.

(** ** Row length and validity *)

Definition wall_t : Type := list (list Z).

(** The derived length of one row: [sum(row) + len(row) + 1]. *)
Definition row_len (row : list Z) : Z := sum row + len row + 1.

(* def get_row_len(self, index) *)
Definition get_row_len (wall : wall_t) (index : Z) : outcome Z :=
  match getitem wall index with
  | Some row => Ok (sum row + len row + 1)
  | None => Raise IndexError_list
  end.

(* def get_max_row_len(self) *)
Definition get_max_row_len (wall : wall_t) : outcome Z :=
  lens <- comprehension (get_row_len wall) (range 0 (len wall)) ;;
  py_max lens.

(* the for loop of is_valid *)
Fixpoint is_valid_loop (wall : wall_t) (first_row_length : Z) (idxs : list Z)
  : outcome bool :=
  match idxs with
  | [] => Ok true
  | row_index :: rest =>
      row_length <- get_row_len wall row_index ;;
      if negb (row_length =? first_row_length) then Ok false
      else is_valid_loop wall first_row_length rest
  end.

(* def is_valid(self) *)
Definition is_valid (wall : wall_t) : outcome bool :=
  first_row_length <- get_row_len wall 0 ;;
  is_valid_loop wall first_row_length (range 1 (len wall)).

(** The wall of the script's main block. *)
Definition demo_wall : wall_t :=
  [ [5; 5; 5; 5]; [3; 3; 3; 7; 3]; [5; 9; 7]; [3; 3; 3; 6; 4] ].

(** ** The random source *)

(** The raw values still to be handed out by the generator. *)
Definition draws : Type := list Z.

(** [randint(lo, hi)] computed from one raw value [r]: the result ranges over
    exactly [lo..hi]; an empty range raises as [random.randrange] does. *)
Definition randint (lo hi r : Z) : outcome Z :=
  if hi <? lo then Raise ValueError_randrange
  else Ok (lo + r mod (hi - lo + 1)).

(** [randint(lo, hi)] as a step on the supply. *)
Definition draw_randint (lo hi : Z) (ds : draws) : outcome (Z * draws) :=
  match ds with
  | [] => if hi <? lo then Raise ValueError_randrange else Starved
  | r :: ds' => v <- randint lo hi r ;; Ok (v, ds')
  end.

(** [x[i] = v] *)
Fixpoint setitem {A} (l : list A) (i : nat) (v : A) : list A :=
  match l, i with
  | [], _ => []
  | _ :: t, O => v :: t
  | h :: t, S i' => h :: setitem t i' v
  end.

(** [x[i], x[j] = x[j], x[i]] *)
Definition swap (x : list Z) (i j : nat) : list Z :=
  let xj := nth j x 0 in
  let xi := nth i x 0 in
  setitem (setitem x i xj) j xi.

(** [random.shuffle(x)] (Fisher-Yates, as in CPython):
    [for i in reversed(range(1, len(x))): j = randbelow(i + 1); swap].
    [shuffle_from i] runs the iterations [i, i-1, ..., 1]; [randbelow(i + 1)]
    is the raw value reduced modulo [i + 1]. *)
Fixpoint shuffle_from (i : nat) (x : list Z) (ds : draws) : outcome (list Z * draws) :=
  match i with
  | O => Ok (x, ds)
  | S i' =>
      match ds with
      | [] => Starved
      | r :: ds' =>
          let j := Z.to_nat (r mod Z.of_nat (i + 1)) in
          shuffle_from i' (swap x i j) ds'
      end
  end.

Definition shuffle (x : list Z) (ds : draws) : outcome (list Z * draws) :=
  shuffle_from (List.length x - 1) x ds.

(** ** The packer: fill_wall_with_bricks *)

(** The test of line 123: the brick fits and does not leave one place. *)
Definition fits (max_row_length count num : Z) : bool :=
  (max_row_length - count >=? num) && negb (max_row_length - count =? num + 1).

(** The [while count < max_row_length] loop on one row; [max_row_length] is
    the value after the subtraction of line 103. *)
Fixpoint fill_loop (max_row_length count : Z) (row : list Z) (ds : draws)
  : outcome (list Z * draws) :=
  if count <? max_row_length then
    match ds with
    | [] => if max_row_length <? 1 then Raise ValueError_randrange else Starved
    | r :: ds' =>
        match randint 1 max_row_length r with
        | Ok num =>
            if (max_row_length - 1 <=? num) && (num <=? max_row_length) && (count =? 0)
            then Ok (row ++ [max_row_length], ds')
            else if max_row_length - count <=? 3
            then Ok (row ++ [max_row_length - count], ds')
            else if fits max_row_length count num
            then fill_loop max_row_length (count + (num + 1)) (row ++ [num]) ds'
            else fill_loop max_row_length count row ds'
        | Raise e => Raise e
        | Starved => Starved
        end
    end
  else Ok (row, ds).

(** The body of [for row in self.wall]. *)
Definition fill_row (max_row_length : Z) (row : list Z) (ds : draws)
  : outcome (list Z * draws) :=
  let count := if len row =? 0 then 0 else sum row + len row in
  fill_loop max_row_length count row ds.

(** A [for row in self.wall] loop whose body [f] rewrites the row. *)
Fixpoint for_rows (f : list Z -> draws -> outcome (list Z * draws))
  (wall : wall_t) (ds : draws) : outcome (wall_t * draws) :=
  match wall with
  | [] => Ok ([], ds)
  | row :: rest =>
      '(row', ds1) <- f row ds ;;
      '(rest', ds2) <- for_rows f rest ds1 ;;
      Ok (row' :: rest', ds2)
  end.

(* def fill_wall_with_bricks(self, max_row_length, shuffle_rows=False) *)
Definition fill_wall_with_bricks (max_row_length : Z) (shuffle_rows : bool)
  (wall : wall_t) (ds : draws) : outcome (wall_t * draws) :=
  let max_row_length := max_row_length - 2 in
  '(wall1, ds1) <- for_rows (fill_row max_row_length) wall ds ;;
  if shuffle_rows then for_rows shuffle wall1 ds1 else Ok (wall1, ds1).

(** ** Construction *)

(** Python values that can sit in a caller-supplied matrix. *)
Inductive pyobj : Type :=
| PyInt (z : Z)
| PyBool (b : bool)
| PyStr (s : string)
| PyNone.

(** [isinstance(v, int)]; [bool] is a subclass of [int]. *)
Definition isinstance_int (v : pyobj) : bool :=
  match v with
  | PyInt _ | PyBool _ => true
  | _ => false
  end.

(** Class attributes. *)
Definition max_rows_number : Z := 10.
Definition max_row_length_cap : Z := 50.   (* BrickWall.max_row_length *)
Definition max_extra_length : Z := 10.

(** The [else] branch of the [wall] setter (lines 75-77).  The generator
    expression iterates over the name [wall], which is not the parameter
    [value] but the module-level global of that name: [global_wall] is its
    binding ([None] when the name is unbound).  [value] is stored as it is. *)
Definition wall_setter {V : Type} (global_wall : option (list (list pyobj)))
  (value : V) : outcome V :=
  match global_wall with
  | None => Raise NameError_wall
  | Some wall =>
      if negb (forallb (fun row => forallb isinstance_int row) wall)
      then Raise TypeError_wall
      else Ok value
  end.

(* def create_wall(self, rows_number=None, row_length=None) *)
Definition create_wall (global_wall : option (list (list pyobj)))
  (rows_number row_length : option Z) (ds : draws) : outcome (wall_t * draws) :=
  '(rows_number, ds) <-
     match rows_number with
     | None => draw_randint 1 max_rows_number ds
     | Some n => Ok (n, ds)
     end ;;
  if rows_number <? 1 then Raise ValueError_rows else
  '(row_length, ds) <-
     match row_length with
     | None => draw_randint 10 max_row_length_cap ds
     | Some n => Ok (n, ds)
     end ;;
  if row_length <? 3 then Raise ValueError_row_length else
  wall <- wall_setter global_wall (map (fun _ => @nil Z) (range 0 rows_number)) ;;
  fill_wall_with_bricks row_length true wall ds.

(** [BrickWall(wall)]: [__init__] assigns [self.wall = wall] through the
    setter (lines 71-77) and then the crossing sign ["x"], which cannot fail.
    The result is the stored matrix. *)
Definition BrickWall_init (global_wall : option (list (list pyobj)))
  (wall : option (list (list pyobj))) (ds : draws)
  : outcome (list (list pyobj) * draws) :=
  match wall with
  | None =>
      '(w, ds') <- create_wall global_wall None None ds ;;
      Ok (map (map PyInt) w, ds')
  | Some value =>
      v <- wall_setter global_wall value ;; Ok (v, ds)
  end.

(* crossing_sign setter; [value] is the str as the list of its code points,
   so that [len(value)] counts characters *)
Definition crossing_sign_setter (value : list Z) : outcome (list Z) :=
  if negb (len value =? 1) then Raise ValueError_sign else Ok value.

(** ** Normalisation *)

(* def normalize_wall(self) *)
Definition normalize_wall (wall : wall_t) (ds : draws) : outcome (wall_t * draws) :=
  valid <- is_valid wall ;;
  if valid then Ok (wall, ds) else
  longest_row <- get_max_row_len wall ;;
  '(wall1, ds1) <- fill_wall_with_bricks longest_row false wall ds ;;
  valid1 <- is_valid wall1 ;;
  if negb valid1 then
    '(extra_length, ds2) <- draw_randint 3 max_extra_length ds1 ;;
    fill_wall_with_bricks (longest_row + extra_length) false wall1 ds2
  else Ok (wall1, ds1).

(** ** The crossline search *)

(** [intersections]: a Python dict, which iterates in insertion order. *)
Definition dict : Type := list (Z * Z).

(** [d.get(k, default)] *)
Fixpoint dict_get (d : dict) (k default : Z) : Z :=
  match d with
  | [] => default
  | (k', v) :: rest => if k' =? k then v else dict_get rest k default
  end.

(** [d[k] = v]: an existing key keeps its place, a new key goes last. *)
Fixpoint dict_set (d : dict) (k v : Z) : dict :=
  match d with
  | [] => [(k, v)]
  | (k', v') :: rest => if k' =? k then (k', v) :: rest else (k', v') :: dict_set rest k v
  end.

(** [max(keys, key=f)] after the first element: a later key wins only with a
    strictly greater value. *)
Fixpoint max_by_key (f : Z -> Z) (best : Z) (keys : list Z) : Z :=
  match keys with
  | [] => best
  | k :: rest => max_by_key f (if f k >? f best then k else best) rest
  end.

(** The inner loop [for brick_length in row[:-1]]. *)
Fixpoint count_seams (bricks : list Z) (count : Z) (intersections : dict) : dict :=
  match bricks with
  | [] => intersections
  | brick_length :: rest =>
      let count := count + (brick_length + 1) in
      count_seams rest count (dict_set intersections count (dict_get intersections count 0 + 1))
  end.

(** The outer loop [for row in self.wall]; [row[:-1]] is [removelast row]. *)
Fixpoint count_all_seams (wall : wall_t) (intersections : dict) : dict :=
  match wall with
  | [] => intersections
  | row :: rest => count_all_seams rest (count_seams (removelast row) 0 intersections)
  end.

(** Lines 186-196: the seam counts of the wall and the choice among them. *)
Definition most_shared_seam (wall : wall_t) : Z :=
  let intersections := count_all_seams wall [] in
  match map fst intersections with
  | [] => 1
  | k :: keys => max_by_key (fun k => dict_get intersections k 0) k keys
  end.

(* def find_min_brick_crossline_position(self) *)
Definition find_min_brick_crossline_position (wall : wall_t) (ds : draws)
  : outcome (Z * wall_t * draws) :=
  valid <- is_valid wall ;;
  '(wall, ds) <- (if negb valid then normalize_wall wall ds else Ok (wall, ds)) ;;
  Ok (most_shared_seam wall, wall, ds).

(** ** Drawing *)

(** [s * n] *)
Fixpoint str_repeat (s : string) (n : nat) : string :=
  match n with
  | O => EmptyString
  | S n' => (s ++ str_repeat s n')%string
  end.

Definition str_mul (s : string) (n : Z) : string := str_repeat s (Z.to_nat n).

(** A slice bound brought into [0 .. length], as Python does. *)
Definition clamp (length : Z) (i : Z) : Z :=
  if i <? 0 then Z.max (i + length) 0 else Z.min i length.

(** [s[lo:hi]]; [None] is an omitted bound. *)
Definition str_slice (s : string) (lo hi : option Z) : string :=
  let n := Z.of_nat (String.length s) in
  let lo := match lo with Some i => clamp n i | None => 0 end in
  let hi := match hi with Some i => clamp n i | None => n end in
  substring (Z.to_nat lo) (Z.to_nat (hi - lo)) s.

(** Printed lines, then how the call ended. *)
Definition printed : Type := (list string * outcome unit)%type.

Definition and_then (m k : printed) : printed :=
  match snd m with
  | Ok _ => (fst m ++ fst k, snd k)
  | _ => m
  end.

(* def draw_wall_border(self, crossline_pos=None) *)
Definition draw_wall_border (wall : wall_t) (crossing_sign : string)
  (crossline_pos : option Z) : printed :=
  match get_max_row_len wall with
  | Ok n =>
      let border_str := str_mul "-"%string n in
      let border_str := ("+" ++ str_slice border_str (Some 1) (Some (-1)) ++ "+")%string in
      let border_str :=
        match crossline_pos with
        | Some p => (str_slice border_str None (Some p) ++ crossing_sign
                     ++ str_slice border_str (Some (p + 1)) None)%string
        | None => border_str
        end in
      ([border_str], Ok tt)
  | Raise e => ([], Raise e)
  | Starved => ([], Starved)
  end.

(** One row of [draw_wall]. *)
Definition wall_row_str (row : list Z) : string :=
  fold_left (fun row_str brick_length => (row_str ++ str_mul " " brick_length ++ "|")%string)
    row "|"%string.

(* def draw_wall(self) *)
Definition draw_wall (wall : wall_t) (crossing_sign : string) : printed :=
  and_then (draw_wall_border wall crossing_sign None)
    (and_then (map wall_row_str wall, Ok tt)
       (draw_wall_border wall crossing_sign None)).

(** [for _ in range(brick_length)] of [draw_wall_crossline]. *)
Fixpoint cross_cells (n : nat) (crossing_sign : string) (position : Z)
  (row_str : string) (pos : Z) : string * Z :=
  match n with
  | O => (row_str, pos)
  | S n' =>
      cross_cells n' crossing_sign position
        (row_str ++ (if (pos =? position)%Z then crossing_sign else " "))%string (pos + 1)
  end.

(** [for brick_length in row] of [draw_wall_crossline]. *)
Fixpoint cross_bricks (row : list Z) (crossing_sign : string) (position : Z)
  (row_str : string) (pos : Z) : string :=
  match row with
  | [] => row_str
  | brick_length :: rest =>
      let '(row_str, pos) :=
        cross_cells (Z.to_nat brick_length) crossing_sign position row_str pos in
      cross_bricks rest crossing_sign position (row_str ++ "|")%string (pos + 1)
  end.

(* def draw_wall_crossline(self, position) *)
Definition draw_wall_crossline (wall : wall_t) (crossing_sign : string)
  (position : Z) : printed :=
  let edges : outcome bool :=
    if (position <=? 0) then Ok true
    else (n <- get_max_row_len wall ;; Ok (position >=? n - 1)) in
  match edges with
  | Ok true => ([], Raise ValueError_edges)
  | Ok false =>
      and_then (draw_wall_border wall crossing_sign (Some position))
        (and_then
           (map (fun row => cross_bricks row crossing_sign position "|"%string 1) wall, Ok tt)
           (draw_wall_border wall crossing_sign (Some position)))
  | Raise e => ([], Raise e)
  | Starved => ([], Starved)
  end.

(** ** Vocabulary of the statements *)

(** A wall all of whose rows have the derived length [n]. *)
Definition rectangular (n : Z) (wall : wall_t) : Prop :=
  Forall (fun row => row_len row = n) wall.

(** Every brick of the row, or of the wall, is a positive integer. *)
Definition positive_row (row : list Z) : Prop := Forall (fun b => 1 <= b) row.
Definition positive_wall (wall : wall_t) : Prop := Forall positive_row wall.

(** The effect of one completed run of the packer's loop on a row: a row
    with room left ends with [sum + len = W + 1], a row without room is left
    alone, and bricks are only appended, each of length at least 1. *)
Definition packed (W : Z) (row row' : list Z) : Prop :=
  (sum row + len row < W -> sum row' + len row' = W + 1) /\
  (W <= sum row + len row -> row' = row) /\
  (exists bricks, row' = row ++ bricks /\ positive_row bricks).

(** The effect of [fill_wall_with_bricks] on a row: packed, then possibly
    shuffled. *)
Definition filled (W : Z) (row row' : list Z) : Prop :=
  exists mid, packed W row mid /\ Permutation mid row'.

(** [isinstance(v, int)] fails. *)
Definition not_an_int (v : pyobj) : Prop := isinstance_int v = false.

(** The first [n] raw values of an endless draw sequence [s], from index [a]. *)
Definition segment (s : nat -> Z) (a n : nat) : draws := map s (seq a n).
Definition prefix (s : nat -> Z) (n : nat) : draws := segment s 0 n.

(** A draw sequence that cannot reject for ever: after any index and at any
    count that reaches the accept/reject test of line 123 there is still a
    draw whose candidate passes the test. *)
Definition keeps_fitting (W : Z) (s : nat -> Z) : Prop :=
  forall (a : nat) (count : Z),
    count + 3 < W ->
    exists m num, (a <= m)%nat /\ randint 1 W (s m) = Ok num /\ fits W count num = true.

(** The draw sequence 1, 9, 9, 9, ... of [randint(1, 10)], as raw values. *)
Definition stuck_draws (i : nat) : Z := if Nat.eqb i 0 then 0 else 8.

(** ** unique_symbol/main.py *)

(** A [str] as the list of its code points. *)
Definition str : Type := list Z.

(** [Counter(s)]: one pass over [s] that bumps the count of each symbol. *)
Definition Counter (s : str) : dict :=
  fold_left (fun counts symbol => dict_set counts symbol (dict_get counts symbol 0 + 1)) s [].

(** The [for symbol in s] loop of find_first_unique; [counts[symbol]] of a
    Counter is 0 for a missing key. *)
Fixpoint first_counted_once (counts : dict) (s : str) : str :=
  match s with
  | [] => []
  | symbol :: rest =>
      if dict_get counts symbol 0 =? 1 then [symbol]
      else first_counted_once counts rest
  end.

(* def find_first_unique(s) *)
Definition find_first_unique (s : str) : str :=
  let counts := Counter s in
  first_counted_once counts s.

(** The character class of the pattern: a word character of [\w] (the
    Unicode table [is_word] is a parameter), the apostrophe (39) or the
    hyphen (45). *)
Definition in_class (is_word : Z -> bool) (c : Z) : bool :=
  is_word c || (c =? 39) || (c =? 45).

(** [re.findall(r"[\w'-]+", text)]: the maximal runs of class characters,
    from left to right; [word] is the run being read. *)
Fixpoint findall (is_word : Z -> bool) (text : str) (word : str) : list str :=
  match text with
  | [] => match word with [] => [] | _ => [word] end
  | c :: rest =>
      if in_class is_word c then findall is_word rest (word ++ [c])
      else match word with
           | [] => findall is_word rest []
           | _ => word :: findall is_word rest []
           end
  end.

(* def solution(text) *)
Definition solution (is_word : Z -> bool) (text : str) : str :=
  let words := findall is_word text [] in
  let symbols := map find_first_unique words in
  find_first_unique (List.concat symbols).

(** ** Vocabulary of the further statements *)

(** The seam columns of a row: the running count after each brick but the
    last. *)
Fixpoint seams_from (count : Z) (bricks : list Z) : list Z :=
  match bricks with
  | [] => []
  | brick_length :: rest =>
      (count + (brick_length + 1)) :: seams_from (count + (brick_length + 1)) rest
  end.

Definition seams (row : list Z) : list Z := seams_from 0 (removelast row).

(** All seams of the wall, row after row, and the number of rows' seams at
    a column. *)
Definition all_seams (wall : wall_t) : list Z := List.concat (map seams wall).

Definition shared_by (wall : wall_t) (k : Z) : Z :=
  Z.of_nat (count_occ Z.eq_dec (all_seams wall) k).

(** The dictionary [d] after counting the keys of [l] into it, one
    [d[k] = d.get(k, 0) + 1] per key. *)
Definition tally (l : list Z) (d : dict) : dict :=
  fold_left (fun counts k => dict_set counts k (dict_get counts k 0 + 1)) l d.

(** [row'] is [row] with positive bricks appended. *)
Definition extends (row row' : list Z) : Prop :=
  exists bricks, row' = row ++ bricks /\ positive_row bricks.

(** [line], whose first character stands in column [col], with the
    character in column [position] replaced by [c] unless it is a brick
    border ["|"]. *)
Fixpoint put_sign (c : ascii) (position col : Z) (line : string) : string :=
  match line with
  | EmptyString => EmptyString
  | String a rest =>
      String (if (col =? position) && negb (Ascii.eqb a "|") then c else a)
             (put_sign c position (col + 1) rest)
  end.

(** The number of occurrences of a symbol in a [str]. *)
Definition occurrences (s : str) (c : Z) : Z := Z.of_nat (count_occ Z.eq_dec s c).

(** ASCII letters, digits and the underscore: the ASCII part of [\w]. *)
Definition ascii_word (c : Z) : bool :=
  ((48 <=? c) && (c <=? 57)) || ((65 <=? c) && (c <=? 90)) ||
  ((97 <=? c) && (c <=? 122)) || (c =? 95).

(** ** Sanity checks of the model on the script's wall *)

Example demo_draw_wall :
  draw_wall demo_wall "x"%string =
  ([ "+-----------------------+";
     "|     |     |     |     |";
     "|   |   |   |       |   |";
     "|     |         |       |";
     "|   |   |   |      |    |";
     "+-----------------------+" ]%string, Ok tt).
Proof. reflexivity. Qed.

(** ** Arithmetic of rows *)

Lemma outcome_bind_Ok {A B} (m : outcome A) (k : A -> outcome B) (b : B) :
  bind m k = Ok b -> exists a, m = Ok a /\ k a = Ok b.
Proof. destruct m; simpl; try discriminate. intros H. eauto. Qed.

Lemma fold_add_acc (l : list Z) (a : Z) : fold_left Z.add l a = a + fold_left Z.add l 0.
Proof.
  revert a. induction l as [|x l IH]; intros a; simpl.
  - lia.
  - rewrite (IH (a + x)), (IH x). lia.
Qed.

Lemma sum_nil : sum [] = 0.
Proof. reflexivity. Qed.

Lemma sum_cons (x : Z) (l : list Z) : sum (x :: l) = x + sum l.
Proof. unfold sum. simpl. apply fold_add_acc. Qed.

Lemma sum_app (l1 l2 : list Z) : sum (l1 ++ l2) = sum l1 + sum l2.
Proof.
  induction l1 as [|x l1 IH].
  - rewrite sum_nil. simpl. lia.
  - simpl app. rewrite !sum_cons, IH. lia.
Qed.

Lemma len_nil {A} : len (@nil A) = 0.
Proof. reflexivity. Qed.

Lemma len_cons {A} (x : A) (l : list A) : len (x :: l) = len l + 1.
Proof. unfold len. simpl List.length. lia. Qed.

Lemma len_app {A} (l1 l2 : list A) : len (l1 ++ l2) = len l1 + len l2.
Proof. unfold len. rewrite length_app. lia. Qed.

Lemma len_nonneg {A} (l : list A) : 0 <= len l.
Proof. unfold len. lia. Qed.

Lemma len_zero_nil {A} (l : list A) : len l = 0 -> l = [].
Proof. destruct l; [reflexivity|]. rewrite len_cons. pose proof (len_nonneg l). lia. Qed.

Lemma count_snoc (row : list Z) (b : Z) :
  sum (row ++ [b]) + len (row ++ [b]) = sum row + len row + (b + 1).
Proof.
  rewrite sum_app, len_app, sum_cons.
  change (sum []) with 0. change (len [b]) with 1. lia.
Qed.

Lemma sum_perm (l1 l2 : list Z) : Permutation l1 l2 -> sum l1 = sum l2.
Proof.
  induction 1 as [| x l l' _ IH | x y l | l l' l'' _ IH1 _ IH2].
  - reflexivity.
  - rewrite !sum_cons, IH. reflexivity.
  - rewrite !sum_cons. lia.
  - congruence.
Qed.

Lemma row_len_perm (l1 l2 : list Z) : Permutation l1 l2 -> row_len l1 = row_len l2.
Proof.
  intros H. unfold row_len, len.
  rewrite (sum_perm _ _ H), (Permutation_length H). reflexivity.
Qed.

(** ** Indexing, row lengths and validity in closed form *)

Lemma getitem_nat {A} (l : list A) (i : nat) :
  (i < List.length l)%nat -> getitem l (Z.of_nat i) = nth_error l i.
Proof.
  intros H. unfold getitem, len.
  replace ((0 <=? Z.of_nat i) && (Z.of_nat i <? Z.of_nat (List.length l))) with true.
  - rewrite Nat2Z.id. reflexivity.
  - symmetry. apply andb_true_iff. split; [apply Z.leb_le | apply Z.ltb_lt]; lia.
Qed.

Lemma getitem_middle {A} (pre : list A) (x : A) (suf : list A) :
  getitem (pre ++ x :: suf) (len pre) = Some x.
Proof.
  unfold len at 1. rewrite getitem_nat.
  - rewrite nth_error_app2 by lia. rewrite Nat.sub_diag. reflexivity.
  - rewrite length_app. simpl. lia.
Qed.

Lemma get_row_len_middle (pre : wall_t) (row : list Z) (suf : wall_t) :
  get_row_len (pre ++ row :: suf) (len pre) = Ok (row_len row).
Proof. unfold get_row_len. rewrite getitem_middle. reflexivity. Qed.

Lemma range_cons (a : Z) (n : nat) :
  map (fun k => a + Z.of_nat k) (seq 0 (S n))
  = a :: map (fun k => (a + 1) + Z.of_nat k) (seq 0 n).
Proof.
  simpl. f_equal; [lia|]. rewrite <- seq_shift, map_map.
  apply map_ext. intros k. lia.
Qed.

Lemma comprehension_rows (pre suf : wall_t) :
  comprehension (get_row_len (pre ++ suf))
    (map (fun k => len pre + Z.of_nat k) (seq 0 (List.length suf)))
  = Ok (map row_len suf).
Proof.
  revert pre. induction suf as [|row suf IH]; intros pre.
  - reflexivity.
  - simpl List.length. rewrite range_cons. simpl comprehension.
    rewrite get_row_len_middle. simpl bind.
    replace (pre ++ row :: suf) with ((pre ++ [row]) ++ suf)
      by (rewrite <- app_assoc; reflexivity).
    replace (len pre + 1) with (len (pre ++ [row])) by (rewrite len_app; reflexivity).
    rewrite IH. reflexivity.
Qed.

Lemma get_max_row_len_closed (wall : wall_t) :
  get_max_row_len wall = py_max (map row_len wall).
Proof.
  unfold get_max_row_len.
  assert (E : range 0 (len wall)
              = map (fun k => len (@nil (list Z)) + Z.of_nat k) (seq 0 (List.length wall))).
  { unfold range, len. rewrite Z.sub_0_r, Nat2Z.id. reflexivity. }
  pose proof (comprehension_rows [] wall) as H.
  change ([] ++ wall) with wall in H.
  rewrite E, H. reflexivity.
Qed.

Lemma is_valid_loop_rows (pre suf : wall_t) (first : Z) :
  is_valid_loop (pre ++ suf) first
    (map (fun k => len pre + Z.of_nat k) (seq 0 (List.length suf)))
  = Ok (forallb (fun row => row_len row =? first) suf).
Proof.
  revert pre. induction suf as [|row suf IH]; intros pre.
  - reflexivity.
  - simpl List.length. rewrite range_cons. simpl is_valid_loop.
    rewrite get_row_len_middle. simpl bind.
    replace (pre ++ row :: suf) with ((pre ++ [row]) ++ suf)
      by (rewrite <- app_assoc; reflexivity).
    replace (len pre + 1) with (len (pre ++ [row])) by (rewrite len_app; reflexivity).
    rewrite IH. simpl forallb. destruct (row_len row =? first); reflexivity.
Qed.

Lemma is_valid_nil : is_valid [] = Raise IndexError_list.
Proof. reflexivity. Qed.

Lemma is_valid_cons (row : list Z) (rest : wall_t) :
  is_valid (row :: rest) = Ok (forallb (fun r => row_len r =? row_len row) rest).
Proof.
  unfold is_valid.
  change (get_row_len (row :: rest) 0) with (Ok (row_len row)). simpl bind.
  assert (E : range 1 (len (row :: rest))
              = map (fun k => len [row] + Z.of_nat k) (seq 0 (List.length rest))).
  { unfold range. rewrite len_cons. unfold len. simpl List.length.
    replace (Z.of_nat (List.length rest) + 1 - 1) with (Z.of_nat (List.length rest)) by lia.
    rewrite Nat2Z.id. reflexivity. }
  rewrite E. exact (is_valid_loop_rows [row] rest (row_len row)).
Qed.

Lemma rectangular_is_valid (n : Z) (wall : wall_t) :
  wall <> [] -> rectangular n wall -> is_valid wall = Ok true.
Proof.
  intros Hne H. destruct wall as [|row rest]; [congruence|].
  rewrite is_valid_cons. f_equal. apply forallb_forall.
  inversion H as [|? ? Hrow Hrest]; subst.
  intros r Hr. apply Z.eqb_eq.
  rewrite Forall_forall in Hrest. rewrite (Hrest r Hr). reflexivity.
Qed.

Lemma is_valid_rectangular (wall : wall_t) :
  is_valid wall = Ok true -> exists n, wall <> [] /\ rectangular n wall.
Proof.
  destruct wall as [|row rest]; [discriminate|].
  rewrite is_valid_cons. intros H. injection H as H.
  exists (row_len row). split; [discriminate|].
  constructor; [reflexivity|].
  apply Forall_forall. intros r Hr. apply Z.eqb_eq.
  rewrite forallb_forall in H. auto.
Qed.

Lemma is_valid_total (wall : wall_t) :
  wall <> [] -> exists b, is_valid wall = Ok b.
Proof.
  destruct wall as [|row rest]; [congruence|]. intros _.
  rewrite is_valid_cons. eauto.
Qed.

(** ** The random source *)

Lemma randint_Ok (lo hi r v : Z) : randint lo hi r = Ok v -> lo <= v <= hi.
Proof.
  unfold randint. destruct (hi <? lo) eqn:E; [discriminate|].
  apply Z.ltb_ge in E. intros H. injection H as <-.
  pose proof (Z.mod_pos_bound r (hi - lo + 1)). lia.
Qed.

Lemma randint_value (lo hi r : Z) :
  lo <= hi -> randint lo hi r = Ok (lo + r mod (hi - lo + 1)).
Proof.
  intros H. unfold randint. destruct (hi <? lo) eqn:E; [|reflexivity].
  apply Z.ltb_lt in E. lia.
Qed.

Lemma draw_randint_Ok (lo hi : Z) (ds : draws) (v : Z) (ds' : draws) :
  draw_randint lo hi ds = Ok (v, ds') -> lo <= v <= hi /\ exists r, ds = r :: ds'.
Proof.
  destruct ds as [|r ds]; simpl.
  - destruct (hi <? lo); discriminate.
  - destruct (randint lo hi r) as [x| |] eqn:E; simpl; try discriminate.
    intros H. injection H as <- <-. split; [eapply randint_Ok; eauto | eauto].
Qed.

(** ** The fill loop of one row *)

Lemma fill_loop_unfold (W count : Z) (row : list Z) (ds : draws) :
  fill_loop W count row ds =
  if count <? W then
    match ds with
    | [] => if W <? 1 then Raise ValueError_randrange else Starved
    | r :: ds' =>
        match randint 1 W r with
        | Ok num =>
            if (W - 1 <=? num) && (num <=? W) && (count =? 0)
            then Ok (row ++ [W], ds')
            else if W - count <=? 3
            then Ok (row ++ [W - count], ds')
            else if fits W count num
            then fill_loop W (count + (num + 1)) (row ++ [num]) ds'
            else fill_loop W count row ds'
        | Raise e => Raise e
        | Starved => Starved
        end
    end
  else Ok (row, ds).
Proof. destruct ds; reflexivity. Qed.

Lemma fill_loop_done (W count : Z) (row : list Z) (ds : draws) :
  W <= count -> fill_loop W count row ds = Ok (row, ds).
Proof.
  intros H. rewrite fill_loop_unfold.
  destruct (count <? W) eqn:E; [apply Z.ltb_lt in E; lia | reflexivity].
Qed.

Lemma fits_spec (W count num : Z) :
  fits W count num = true <-> num <= W - count /\ W - count <> num + 1.
Proof.
  unfold fits. rewrite andb_true_iff, negb_true_iff, Z.geb_le, Z.eqb_neq. tauto.
Qed.

(** What one completed run of the loop does to a row: the loop invariant
    [count = sum(row) + len(row)] carried to the exit. *)
Lemma fill_loop_spec (W : Z) (ds : draws) :
  forall (count : Z) (row row' : list Z) (ds' : draws),
    count = sum row + len row ->
    fill_loop W count row ds = Ok (row', ds') ->
    (count < W -> sum row' + len row' = W + 1) /\
    (W <= count -> row' = row /\ ds' = ds) /\
    (exists bricks, row' = row ++ bricks /\ Forall (fun b => 1 <= b) bricks).
Proof.
  induction ds as [|r ds IH]; intros count row row' ds' Hcount; rewrite fill_loop_unfold.
  - destruct (count <? W) eqn:E.
    + destruct (W <? 1); discriminate.
    + apply Z.ltb_ge in E. intros H. injection H as <- <-.
      repeat split; try lia. exists []. rewrite app_nil_r. auto.
  - destruct (count <? W) eqn:E.
    2:{ apply Z.ltb_ge in E. intros H. injection H as <- <-.
        repeat split; try lia. exists []. rewrite app_nil_r. auto. }
    apply Z.ltb_lt in E.
    destruct (randint 1 W r) as [num| |] eqn:Hnum; try discriminate.
    apply randint_Ok in Hnum.
    destruct ((W - 1 <=? num) && (num <=? W) && (count =? 0)) eqn:Hone.
    { intros H. injection H as <- <-.
      apply andb_true_iff in Hone. destruct Hone as [_ H0]. apply Z.eqb_eq in H0.
      split; [|split]; [| lia |].
      - intros _. rewrite count_snoc. lia.
      - exists [W]. split; [reflexivity|]. constructor; [lia | constructor]. }
    destruct (W - count <=? 3) eqn:Hlast.
    { intros H. injection H as <- <-.
      split; [|split]; [| lia |].
      - intros _. rewrite count_snoc. lia.
      - exists [W - count]. split; [reflexivity|]. constructor; [lia | constructor]. }
    destruct (fits W count num) eqn:Hfits.
    + apply fits_spec in Hfits. intros H.
      apply IH in H.
      2:{ rewrite count_snoc. lia. }
      destruct H as (Hlt & Hge & bricks & Hrow & Hpos).
      split; [|split]; [| lia |].
      * intros _. destruct (Z.lt_ge_cases (count + (num + 1)) W) as [Hc|Hc]; [auto|].
        destruct (Hge Hc) as [-> _].
        rewrite count_snoc. lia.
      * exists (num :: bricks). split.
        -- rewrite Hrow, <- app_assoc. reflexivity.
        -- constructor; [lia | assumption].
    + intros H. apply IH in H; [|assumption].
      destruct H as (Hlt & Hge & Hbricks). split; [|split]; [auto | lia | auto].
Qed.

Lemma fill_row_count (row : list Z) :
  (if len row =? 0 then 0 else sum row + len row) = sum row + len row.
Proof.
  destruct (len row =? 0) eqn:E; [|reflexivity].
  apply Z.eqb_eq in E. rewrite (len_zero_nil _ E). reflexivity.
Qed.

Lemma fill_row_as_loop (W : Z) (row : list Z) (ds : draws) :
  fill_row W row ds = fill_loop W (sum row + len row) row ds.
Proof. unfold fill_row. rewrite fill_row_count. reflexivity. Qed.

Lemma fill_row_packed (W : Z) (row row' : list Z) (ds ds' : draws) :
  fill_row W row ds = Ok (row', ds') -> packed W row row'.
Proof.
  rewrite fill_row_as_loop. intros H.
  apply fill_loop_spec in H; [|reflexivity].
  destruct H as (Hlt & Hge & Hbricks).
  split; [|split]; [assumption | | assumption].
  intros Hc. apply Hge. assumption.
Qed.

Lemma fill_row_skips (W : Z) (row : list Z) (ds : draws) :
  W <= sum row + len row -> fill_row W row ds = Ok (row, ds).
Proof. intros H. rewrite fill_row_as_loop. apply fill_loop_done. assumption. Qed.

Lemma packed_positive (W : Z) (row row' : list Z) :
  packed W row row' -> positive_row row -> positive_row row'.
Proof.
  intros (_ & _ & bricks & -> & Hb) Hrow. apply Forall_app. split; assumption.
Qed.

Lemma packed_row_len (W : Z) (row row' : list Z) :
  packed W row row' ->
  (row_len row < W + 1 -> row_len row' = W + 2) /\
  (W + 1 <= row_len row -> row_len row' = row_len row).
Proof.
  intros (Hlt & Hge & _). unfold row_len. split; intros H.
  - assert (sum row' + len row' = W + 1) by (apply Hlt; lia). lia.
  - rewrite Hge; [reflexivity | lia].
Qed.

(** ** Loops over the rows *)

Lemma for_rows_Forall2 (f : list Z -> draws -> outcome (list Z * draws))
  (R : list Z -> list Z -> Prop) :
  (forall row ds row' ds', f row ds = Ok (row', ds') -> R row row') ->
  forall wall ds wall' ds',
    for_rows f wall ds = Ok (wall', ds') -> Forall2 R wall wall'.
Proof.
  intros Hf. induction wall as [|row rest IH]; intros ds wall' ds'; simpl.
  - intros H. injection H as <- <-. constructor.
  - intros H.
    apply outcome_bind_Ok in H. destruct H as ([row1 ds1] & Hrow & H).
    apply outcome_bind_Ok in H. destruct H as ([rest1 ds2] & Hrest & H).
    injection H as <- <-. constructor; eauto.
Qed.

Lemma Forall2_length_len {A B} (R : A -> B -> Prop) (l1 : list A) (l2 : list B) :
  Forall2 R l1 l2 -> len l2 = len l1.
Proof. intros H. unfold len. rewrite (Forall2_length H). reflexivity. Qed.

Lemma Forall2_Forall_r {A B} (R : A -> B -> Prop) (P : A -> Prop) (Q : B -> Prop)
  (l1 : list A) (l2 : list B) :
  (forall a b, R a b -> P a -> Q b) -> Forall2 R l1 l2 -> Forall P l1 -> Forall Q l2.
Proof.
  intros HR H. induction H as [|a b l1 l2 Hab _ IH]; intros HP.
  - constructor.
  - inversion HP; subst. constructor; eauto.
Qed.

Lemma Forall2_compose {A B C} (R : A -> B -> Prop) (S : B -> C -> Prop)
  (l1 : list A) (l2 : list B) (l3 : list C) :
  Forall2 R l1 l2 -> Forall2 S l2 l3 ->
  Forall2 (fun a c => exists b, R a b /\ S b c) l1 l3.
Proof.
  intros H. revert l3. induction H as [|a b l1 l2 Hab _ IH]; intros l3 H3.
  - inversion H3. constructor.
  - inversion H3; subst. constructor; eauto.
Qed.

(** ** Shuffling *)

Lemma setitem_perm {A} (d : A) (l : list A) :
  forall (i : nat) (v : A),
    (i < List.length l)%nat ->
    Permutation (nth i l d :: setitem l i v) (v :: l).
Proof.
  induction l as [|h t IH]; intros i v Hi; simpl in Hi; [lia|].
  destruct i as [|i]; simpl.
  - apply perm_swap.
  - apply Permutation_trans with (h :: nth i t d :: setitem t i v).
    + apply perm_swap.
    + apply Permutation_trans with (h :: v :: t).
      * apply perm_skip. apply IH. lia.
      * apply perm_swap.
Qed.

Lemma setitem_length {A} (l : list A) : forall i v, List.length (setitem l i v) = List.length l.
Proof.
  induction l as [|h t IH]; intros [|i] v; simpl; auto.
Qed.


Lemma setitem_same {A} (d : A) (l : list A) : forall i, setitem l i (nth i l d) = l.
Proof.
  induction l as [|h t IH]; intros [|i]; simpl; auto. f_equal. apply IH.
Qed.

Lemma nth_setitem_other {A} (d : A) (l : list A) :
  forall i j v, i <> j -> nth j (setitem l i v) d = nth j l d.
Proof.
  induction l as [|h t IH]; intros [|i] [|j] v H; simpl; auto; try congruence.
Qed.

Lemma swap_perm (x : list Z) (i j : nat) :
  (i < List.length x)%nat -> (j < List.length x)%nat -> Permutation (swap x i j) x.
Proof.
  intros Hi Hj. unfold swap.
  destruct (Nat.eq_dec i j) as [->|Hne].
  - rewrite (setitem_same 0 x j), (setitem_same 0 x j). apply Permutation_refl.
  - apply Permutation_cons_inv with (a := nth j x 0).
    pose proof (setitem_perm 0 (setitem x i (nth j x 0)) j (nth i x 0)) as H1.
    rewrite setitem_length, nth_setitem_other in H1 by assumption.
    specialize (H1 Hj).
    pose proof (setitem_perm 0 x i (nth j x 0) Hi) as H2.
    eapply Permutation_trans; [exact H1|]. exact H2.
Qed.

Lemma shuffle_from_perm (i : nat) :
  forall (x : list Z) (ds : draws) (x' : list Z) (ds' : draws),
    (i < List.length x)%nat \/ i = O ->
    shuffle_from i x ds = Ok (x', ds') -> Permutation x x'.
Proof.
  induction i as [|i IH]; intros x ds x' ds' Hi.
  - simpl. intros H. injection H as <- <-. apply Permutation_refl.
  - destruct ds as [|r ds]; [discriminate|].
    change (shuffle_from (S i) x (r :: ds))
      with (shuffle_from i (swap x (S i) (Z.to_nat (r mod Z.of_nat (S i + 1)))) ds).
    intros H.
    destruct Hi as [Hi|Hi]; [|discriminate].
    assert (Hj : (Z.to_nat (r mod Z.of_nat (S i + 1)) < List.length x)%nat).
    { pose proof (Z.mod_pos_bound r (Z.of_nat (S i + 1))). lia. }
    pose proof (swap_perm x (S i) _ Hi Hj) as Hs.
    apply IH in H.
    + eapply Permutation_trans; [apply Permutation_sym; exact Hs | exact H].
    + left. rewrite (Permutation_length Hs). lia.
Qed.

Lemma shuffle_perm (x : list Z) (ds : draws) (x' : list Z) (ds' : draws) :
  shuffle x ds = Ok (x', ds') -> Permutation x x'.
Proof.
  unfold shuffle. apply shuffle_from_perm.
  destruct x; simpl; [right; reflexivity | left; lia].
Qed.

(** ** fill_wall_with_bricks on a whole wall *)

Lemma fill_wall_no_shuffle (total : Z) (wall : wall_t) (ds : draws)
  (wall' : wall_t) (ds' : draws) :
  fill_wall_with_bricks total false wall ds = Ok (wall', ds') ->
  Forall2 (packed (total - 2)) wall wall'.
Proof.
  unfold fill_wall_with_bricks. intros H.
  apply outcome_bind_Ok in H. destruct H as ([wall1 ds1] & Hfill & H).
  injection H as <- <-.
  eapply for_rows_Forall2; [|exact Hfill].
  intros row d row' d'. apply fill_row_packed.
Qed.

Lemma fill_wall_filled (total : Z) (shuffle_rows : bool) (wall : wall_t) (ds : draws)
  (wall' : wall_t) (ds' : draws) :
  fill_wall_with_bricks total shuffle_rows wall ds = Ok (wall', ds') ->
  Forall2 (filled (total - 2)) wall wall'.
Proof.
  destruct shuffle_rows.
  - unfold fill_wall_with_bricks. intros H.
    apply outcome_bind_Ok in H. destruct H as ([wall1 ds1] & Hfill & Hshuffle).
    apply (for_rows_Forall2 _ (packed (total - 2))) in Hfill.
    2:{ intros row d row' d'. apply fill_row_packed. }
    apply (for_rows_Forall2 _ (@Permutation Z)) in Hshuffle.
    2:{ intros row d row' d'. apply shuffle_perm. }
    exact (Forall2_compose _ _ _ _ _ Hfill Hshuffle).
  - intros H. apply fill_wall_no_shuffle in H.
    eapply Forall2_impl; [|exact H].
    intros row row' Hp. exists row'. split; [assumption | apply Permutation_refl].
Qed.

Lemma filled_row_len (W : Z) (row row' : list Z) :
  filled W row row' ->
  (row_len row < W + 1 -> row_len row' = W + 2) /\
  (W + 1 <= row_len row -> row_len row' = row_len row).
Proof.
  intros (mid & Hp & Hperm). rewrite <- (row_len_perm _ _ Hperm).
  apply packed_row_len. assumption.
Qed.

Lemma filled_positive (W : Z) (row row' : list Z) :
  filled W row row' -> positive_row row -> positive_row row'.
Proof.
  intros (mid & Hp & Hperm) Hrow.
  eapply Permutation_Forall; [exact Hperm|]. eapply packed_positive; eauto.
Qed.

(** ** The longest row *)

Lemma fold_max_bound (l : list Z) :
  forall x, x <= fold_left Z.max l x /\ Forall (fun y => y <= fold_left Z.max l x) l.
Proof.
  induction l as [|h t IH]; intros x; simpl.
  - split; [lia | constructor].
  - destruct (IH (Z.max x h)) as [H1 H2]. split; [lia|].
    constructor; [lia | assumption].
Qed.

Lemma get_max_row_len_bound (wall : wall_t) (M : Z) :
  get_max_row_len wall = Ok M ->
  wall <> [] /\ Forall (fun row => row_len row <= M) wall.
Proof.
  rewrite get_max_row_len_closed.
  destruct wall as [|row rest]; simpl; [discriminate|].
  intros H. injection H as <-. split; [discriminate|].
  destruct (fold_max_bound (map row_len rest) (row_len row)) as [H1 H2].
  constructor; [assumption|].
  rewrite Forall_map in H2. assumption.
Qed.

Lemma get_max_row_len_total (wall : wall_t) :
  wall <> [] -> exists M, get_max_row_len wall = Ok M.
Proof.
  rewrite get_max_row_len_closed.
  destruct wall as [|row rest]; [congruence|]. simpl. eauto.
Qed.

Lemma Forall2_nonempty {A B} (R : A -> B -> Prop) (l1 : list A) (l2 : list B) :
  Forall2 R l1 l2 -> l1 <> [] -> l2 <> [].
Proof. intros H. inversion H; subst; congruence. Qed.

(** The first pass of [normalize_wall]: every row ends at the longest length
    [M] or one short of it. *)
Lemma first_pass_lengths (wall : wall_t) (M : Z) (ds : draws)
  (wall1 : wall_t) (ds1 : draws) :
  get_max_row_len wall = Ok M ->
  fill_wall_with_bricks M false wall ds = Ok (wall1, ds1) ->
  Forall (fun row => row_len row = M \/ row_len row = M - 1) wall1 /\
  Forall (fun row => row_len row <= M) wall1 /\ wall1 <> [].
Proof.
  intros HM Hfill.
  apply get_max_row_len_bound in HM. destruct HM as [Hne Hle].
  apply fill_wall_filled in Hfill.
  split; [|split].
  - eapply Forall2_Forall_r; [|exact Hfill|exact Hle].
    intros row row' Hf Hrow. simpl in Hrow.
    apply filled_row_len in Hf. destruct Hf as [Hlt Hge].
    destruct (Z.lt_ge_cases (row_len row) (M - 2 + 1)) as [Hc|Hc].
    + left. rewrite Hlt by assumption. lia.
    + rewrite Hge by assumption. lia.
  - eapply Forall2_Forall_r; [|exact Hfill|exact Hle].
    intros row row' Hf Hrow. simpl in Hrow.
    apply filled_row_len in Hf. destruct Hf as [Hlt Hge].
    destruct (Z.lt_ge_cases (row_len row) (M - 2 + 1)) as [Hc|Hc].
    + rewrite Hlt by assumption. lia.
    + rewrite Hge by assumption. lia.
  - eapply Forall2_nonempty; eauto.
Qed.

(** The second pass: with an extra length of at least 2 every row has room
    and is refilled to [M + extra]. *)
Lemma second_pass_lengths (wall1 : wall_t) (M extra : Z) (ds : draws)
  (wall2 : wall_t) (ds2 : draws) :
  2 <= extra ->
  Forall (fun row => row_len row <= M) wall1 ->
  fill_wall_with_bricks (M + extra) false wall1 ds = Ok (wall2, ds2) ->
  rectangular (M + extra) wall2.
Proof.
  intros Hextra Hle Hfill. apply fill_wall_filled in Hfill.
  eapply Forall2_Forall_r; [|exact Hfill|exact Hle].
  intros row row' Hf Hrow. simpl in Hrow.
  apply filled_row_len in Hf. destruct Hf as [Hlt _].
  rewrite Hlt; lia.
Qed.

Lemma normalize_wall_valid (wall : wall_t) (ds : draws) (wall' : wall_t) (ds' : draws) :
  normalize_wall wall ds = Ok (wall', ds') -> is_valid wall' = Ok true.
Proof.
  unfold normalize_wall. intros H.
  apply outcome_bind_Ok in H. destruct H as (valid & Hvalid & H).
  destruct valid.
  { injection H as <- <-. assumption. }
  apply outcome_bind_Ok in H. destruct H as (M & HM & H).
  apply outcome_bind_Ok in H. destruct H as ([wall1 ds1] & Hfill1 & H).
  apply outcome_bind_Ok in H. destruct H as (valid1 & Hvalid1 & H).
  destruct valid1; simpl in H.
  { injection H as <- <-. assumption. }
  apply outcome_bind_Ok in H. destruct H as ([extra ds2] & Hextra & Hfill2).
  apply draw_randint_Ok in Hextra. destruct Hextra as [Hextra _].
  destruct (first_pass_lengths _ _ _ _ _ HM Hfill1) as (_ & Hle & Hne).
  apply rectangular_is_valid with (n := M + extra).
  - apply fill_wall_filled in Hfill2. eapply Forall2_nonempty; eauto.
  - eapply second_pass_lengths; [|exact Hle|exact Hfill2]. lia.
Qed.

Lemma normalize_wall_noop (wall : wall_t) (ds : draws) :
  is_valid wall = Ok true -> normalize_wall wall ds = Ok (wall, ds).
Proof. intros H. unfold normalize_wall. rewrite H. reflexivity. Qed.

Lemma create_wall_rows (g : option (list (list pyobj))) (rows_number row_length : option Z)
  (ds : draws) (wall : wall_t) (ds' : draws) :
  create_wall g rows_number row_length ds = Ok (wall, ds') ->
  exists n L ds1,
    match rows_number with Some k => n = k | None => 1 <= n <= max_rows_number end /\
    match row_length with Some k => L = k | None => 10 <= L <= max_row_length_cap end /\
    1 <= n /\ 3 <= L /\
    fill_wall_with_bricks L true (map (fun _ => []) (range 0 n)) ds1 = Ok (wall, ds').
Proof.
  unfold create_wall. intros H.
  apply outcome_bind_Ok in H. destruct H as ([n d1] & Hn & H).
  destruct (n <? 1) eqn:En; [discriminate|]. apply Z.ltb_ge in En.
  apply outcome_bind_Ok in H. destruct H as ([L d2] & HL & H).
  destruct (L <? 3) eqn:EL; [discriminate|]. apply Z.ltb_ge in EL.
  apply outcome_bind_Ok in H. destruct H as (wall0 & Hset & H).
  assert (wall0 = map (fun _ => []) (range 0 n)) as ->.
  { unfold wall_setter in Hset. destruct g as [w|]; [|discriminate].
    destruct (negb _); [discriminate|]. injection Hset as <-. reflexivity. }
  exists n, L, d2. repeat split; try assumption.
  - destruct rows_number as [k|].
    + injection Hn as <- <-. reflexivity.
    + apply draw_randint_Ok in Hn. tauto.
  - destruct row_length as [k|].
    + injection HL as <- <-. reflexivity.
    + apply draw_randint_Ok in HL. tauto.
Qed.

Lemma empty_rows_len (n : Z) :
  0 <= n -> len (map (fun _ : Z => @nil Z) (range 0 n)) = n.
Proof.
  intros H. unfold len, range. rewrite !length_map, length_seq. lia.
Qed.

Lemma create_wall_rectangular (g : option (list (list pyobj)))
  (rows_number row_length : option Z) (ds : draws) (wall : wall_t) (ds' : draws) :
  create_wall g rows_number row_length ds = Ok (wall, ds') ->
  exists n L,
    match rows_number with Some k => n = k | None => 1 <= n <= max_rows_number end /\
    match row_length with Some k => L = k | None => 10 <= L <= max_row_length_cap end /\
    1 <= n /\ 3 <= L /\ len wall = n /\ rectangular L wall /\ positive_wall wall.
Proof.
  intros H. apply create_wall_rows in H.
  destruct H as (n & L & ds1 & Hn & HL & Hn1 & HL3 & Hfill).
  exists n, L. apply fill_wall_filled in Hfill.
  repeat split; try assumption.
  - rewrite (Forall2_length_len _ _ _ Hfill). apply empty_rows_len. lia.
  - eapply Forall2_Forall_r with (P := fun row => row = []); [|exact Hfill|].
    + intros row row' Hf ->. apply filled_row_len in Hf. destruct Hf as [Hlt _].
      rewrite Hlt; [lia|]. unfold row_len. simpl. lia.
    + apply Forall_map. apply Forall_forall. reflexivity.
  - eapply Forall2_Forall_r with (P := fun row => row = []); [|exact Hfill|].
    + intros row row' Hf ->. eapply filled_positive; [exact Hf | constructor].
    + apply Forall_map. apply Forall_forall. reflexivity.
Qed.

Lemma len_pos_nonempty {A} (l : list A) : 1 <= len l -> l <> [].
Proof. destruct l; [rewrite len_nil; lia | discriminate]. Qed.

(** ** The claims on the packer, generation and normalisation *)

(** C1, as stated, fails: packing an empty row for the total length 3
    (interior width 1) leaves [sum + count = 2], not 1. *)
Lemma packer_overshoots_interior_width :
  exists row',
    fill_wall_with_bricks 3 false [[]] [0] = Ok ([row'], []) /\
    sum row' + len row' <> 3 - 2.
Proof. exists [1]. split; [reflexivity | discriminate]. Qed.

(** C1, amended: for every initially empty row and every interior width
    [W >= 1] (the total length passed to fill_wall_with_bricks minus 2), when
    the fill loop completes the row satisfies
    [sum(bricks) + count(bricks) = W + 1], that is, its derived row length is
    the total length [W + 2]. *)
Theorem packer_fills_empty_row (W : Z) (ds : draws) (row' : list Z) (ds' : draws) :
  1 <= W ->
  fill_row W [] ds = Ok (row', ds') ->
  sum row' + len row' = W + 1 /\ row_len row' = W + 2.
Proof.
  intros HW H. apply fill_row_packed in H. destruct H as (Hlt & _ & _).
  assert (sum row' + len row' = W + 1)
    by (apply Hlt; change (sum [] + len (@nil Z)) with 0; lia).
  unfold row_len. lia.
Qed.

Lemma packer_fills_empty_row_witness :
  sum [2; 1] + len [2; 1] = 4 + 1 /\ row_len [2; 1] = 4 + 2.
Proof.
  apply (packer_fills_empty_row 4 [1; 7] [2; 1] []); [lia | reflexivity].
Defined.

(** C3: for every wall and every valid row index [i], [get_row_len(i)] is
    the sum of the bricks of row [i] plus their number plus 1; on the wall of
    the main block every row has length 25 and [is_valid()] is True on the
    wall as given (normalize_wall leaves it alone). *)
Theorem get_row_len_formula (wall : wall_t) (i : Z) (row : list Z) :
  getitem wall i = Some row ->
  get_row_len wall i = Ok (sum row + len row + 1) /\
  map (get_row_len demo_wall) [0; 1; 2; 3] = [Ok 25; Ok 25; Ok 25; Ok 25] /\
  is_valid demo_wall = Ok true /\
  (forall ds, normalize_wall demo_wall ds = Ok (demo_wall, ds)).
Proof.
  intros H. unfold get_row_len. rewrite H.
  repeat split; reflexivity.
Qed.

Lemma get_row_len_formula_witness :
  get_row_len demo_wall (-2) = Ok (sum [5; 9; 7] + len [5; 9; 7] + 1).
Proof.
  exact (proj1 (get_row_len_formula demo_wall (-2) [5; 9; 7] eq_refl)).
Defined.

(** C4: whenever create_wall completes (rows_number >= 1 and row_length >= 3,
    supplied or drawn, and draws that let the fill loops finish), every row
    of the new wall has the chosen row_length as derived length, so
    [is_valid()] is True. *)
Theorem create_wall_valid (g : option (list (list pyobj)))
  (rows_number row_length : option Z) (ds : draws) (wall : wall_t) (ds' : draws) :
  create_wall g rows_number row_length ds = Ok (wall, ds') ->
  exists n L,
    match rows_number with Some k => n = k | None => 1 <= n <= max_rows_number end /\
    match row_length with Some k => L = k | None => 10 <= L <= max_row_length_cap end /\
    1 <= n /\ 3 <= L /\ len wall = n /\ rectangular L wall /\
    is_valid wall = Ok true.
Proof.
  intros H. apply create_wall_rectangular in H.
  destruct H as (n & L & Hn & HL & Hn1 & HL3 & Hlen & Hrect & _).
  exists n, L. repeat split; try assumption.
  apply rectangular_is_valid with (n := L); [|assumption].
  apply len_pos_nonempty. lia.
Qed.

Lemma create_wall_valid_witness :
  exists n L,
    n = 3 /\ 10 <= L <= max_row_length_cap /\
    1 <= n /\ 3 <= L /\ len [[5; 4]; [6; 3]; [3; 3; 2]] = n /\
    rectangular L [[5; 4]; [6; 3]; [3; 3; 2]] /\
    is_valid [[5; 4]; [6; 3]; [3; 3; 2]] = Ok true.
Proof.
  apply (create_wall_valid (Some []) (Some 3) None
           [2; 3; 4; 5; 6; 1; 2; 3; 4; 5; 6; 7] [[5; 4]; [6; 3]; [3; 3; 2]] []).
  vm_compute. reflexivity.
Defined.


(** C7: normalize_wall on an already valid wall changes nothing, and it is
    idempotent: once a call has returned, the wall is valid and a second
    call changes nothing (and draws nothing). *)
Theorem normalize_wall_idempotent (wall : wall_t) (ds : draws) :
  (is_valid wall = Ok true -> normalize_wall wall ds = Ok (wall, ds)) /\
  (forall wall' ds',
      normalize_wall wall ds = Ok (wall', ds') ->
      is_valid wall' = Ok true /\
      forall ds2, normalize_wall wall' ds2 = Ok (wall', ds2)).
Proof.
  split.
  - apply normalize_wall_noop.
  - intros wall' ds' H. apply normalize_wall_valid in H.
    split; [assumption|]. intros ds2. apply normalize_wall_noop. assumption.
Qed.

Lemma normalize_wall_idempotent_witness :
  normalize_wall demo_wall [7] = Ok (demo_wall, [7]) /\
  (is_valid [[2; 3]; [1; 1; 2]] = Ok true /\
   forall ds2, normalize_wall [[2; 3]; [1; 1; 2]] ds2 = Ok ([[2; 3]; [1; 1; 2]], ds2)).
Proof.
  split.
  - exact (proj1 (normalize_wall_idempotent demo_wall [7]) eq_refl).
  - exact (proj2 (normalize_wall_idempotent [[2]; [1; 1]] [0; 0; 0])
             [[2; 3]; [1; 1; 2]] [] eq_refl).
Defined.

Lemma fill_wall_positive (total : Z) (shuffle_rows : bool) (wall : wall_t) (ds : draws)
  (wall' : wall_t) (ds' : draws) :
  positive_wall wall ->
  fill_wall_with_bricks total shuffle_rows wall ds = Ok (wall', ds') ->
  positive_wall wall'.
Proof.
  intros Hpos H. apply fill_wall_filled in H.
  eapply Forall2_Forall_r; [|exact H|exact Hpos].
  intros row row'. apply filled_positive.
Qed.

Lemma normalize_wall_positive (wall : wall_t) (ds : draws) (wall' : wall_t) (ds' : draws) :
  positive_wall wall -> normalize_wall wall ds = Ok (wall', ds') -> positive_wall wall'.
Proof.
  intros Hpos. unfold normalize_wall. intros H.
  apply outcome_bind_Ok in H. destruct H as (valid & Hvalid & H).
  destruct valid.
  { injection H as <- <-. assumption. }
  apply outcome_bind_Ok in H. destruct H as (M & HM & H).
  apply outcome_bind_Ok in H. destruct H as ([wall1 ds1] & Hfill1 & H).
  apply fill_wall_positive in Hfill1; [|assumption].
  apply outcome_bind_Ok in H. destruct H as (valid1 & Hvalid1 & H).
  destruct valid1; simpl in H.
  { injection H as <- <-. assumption. }
  apply outcome_bind_Ok in H. destruct H as ([extra ds2] & Hextra & Hfill2).
  eapply fill_wall_positive; eassumption.
Qed.

(** C9: every brick the packer appends has length at least 1, and
    fill_wall_with_bricks, create_wall, normalize_wall and the shuffle of a
    row keep every brick of every row positive. *)
Theorem bricks_stay_positive :
  (forall W row ds row' ds',
      fill_row W row ds = Ok (row', ds') ->
      exists bricks, row' = row ++ bricks /\ Forall (fun b => 1 <= b) bricks) /\
  (forall total shuffle_rows wall ds wall' ds',
      positive_wall wall ->
      fill_wall_with_bricks total shuffle_rows wall ds = Ok (wall', ds') ->
      positive_wall wall') /\
  (forall g rows_number row_length ds wall' ds',
      create_wall g rows_number row_length ds = Ok (wall', ds') ->
      positive_wall wall') /\
  (forall wall ds wall' ds',
      positive_wall wall ->
      normalize_wall wall ds = Ok (wall', ds') ->
      positive_wall wall') /\
  (forall row ds row' ds',
      positive_row row -> shuffle row ds = Ok (row', ds') -> positive_row row').
Proof.
  split; [|split; [|split; [|split]]].
  - intros W row ds row' ds' H. apply fill_row_packed in H.
    destruct H as (_ & _ & H). exact H.
  - intros total sh wall ds wall' ds'. apply fill_wall_positive.
  - intros g rn rl ds wall' ds' H. apply create_wall_rectangular in H.
    destruct H as (n & L & H). tauto.
  - intros wall ds wall' ds'. apply normalize_wall_positive.
  - intros row ds row' ds' Hpos H. apply shuffle_perm in H.
    eapply Permutation_Forall; eassumption.
Qed.

Lemma bricks_stay_positive_witness :
  (exists bricks, [2; 1; 2] = [2] ++ bricks /\ Forall (fun b => 1 <= b) bricks) /\
  positive_wall [[3; 2]; [1; 2; 1]] /\
  positive_wall [[5; 4]; [6; 3]; [3; 3; 2]] /\
  positive_wall [[1; 4; 2]; [2; 3; 2]; [1; 1; 1; 1; 1]] /\
  positive_row [2; 3; 1].
Proof.
  destruct bricks_stay_positive as (Hrow & Hfill & Hcreate & Hnorm & Hshuffle).
  split; [|split; [|split; [|split]]].
  - apply (Hrow 7 [2] [0; 0] [2; 1; 2] []). reflexivity.
  - apply (Hfill 8 true [[2]; [1; 1]] [0; 0; 0; 0; 0] [[3; 2]; [1; 2; 1]] []).
    + repeat (constructor; try lia).
    + reflexivity.
  - apply (Hcreate (Some []) (Some 3) (Some 12) [3; 4; 5; 6; 1; 2; 3; 4; 5; 6; 7]
             [[5; 4]; [6; 3]; [3; 3; 2]] []).
    reflexivity.
  - apply (Hnorm [[1]; [2; 3]; [1; 1; 1; 1; 1]] [3; 4; 5]
             [[1; 4; 2]; [2; 3; 2]; [1; 1; 1; 1; 1]] []).
    + repeat (constructor; try lia).
    + reflexivity.
  - apply (Hshuffle [1; 2; 3] [0; 0] [2; 3; 1] []).
    + repeat (constructor; try lia).
    + reflexivity.
Defined.

(** ** Drawing with a crossline *)

Lemma get_max_row_len_cases (wall : wall_t) :
  (wall = [] /\ get_max_row_len wall = Raise ValueError_max_empty) \/
  (wall <> [] /\ exists n, get_max_row_len wall = Ok n).
Proof.
  rewrite get_max_row_len_closed. destruct wall as [|row rest]; simpl.
  - left. split; reflexivity.
  - right. split; [discriminate | eauto].
Qed.

Lemma draw_wall_border_Ok (wall : wall_t) (sign : string) (p : option Z) (n : Z) :
  get_max_row_len wall = Ok n ->
  exists line, draw_wall_border wall sign p = ([line], Ok tt).
Proof. intros H. unfold draw_wall_border. rewrite H. eauto. Qed.

Lemma and_then_Ok (lines1 : list string) (k : printed) :
  and_then (lines1, Ok tt) k = (lines1 ++ fst k, snd k).
Proof. reflexivity. Qed.

(** The three ways a call of draw_wall_crossline can go. *)
Lemma draw_wall_crossline_cases (wall : wall_t) (sign : string) (position : Z) :
  (draw_wall_crossline wall sign position = ([], Raise ValueError_edges) /\
   (position <= 0 \/ exists n, get_max_row_len wall = Ok n /\ position >= n - 1)) \/
  (draw_wall_crossline wall sign position = ([], Raise ValueError_max_empty) /\
   0 < position /\ wall = []) \/
  (exists lines,
      draw_wall_crossline wall sign position = (lines, Ok tt) /\
      List.length lines = (List.length wall + 2)%nat /\
      0 < position /\ exists n, get_max_row_len wall = Ok n /\ position < n - 1).
Proof.
  unfold draw_wall_crossline.
  destruct (position <=? 0) eqn:E0.
  { left. apply Z.leb_le in E0. split; [reflexivity | left; assumption]. }
  apply Z.leb_gt in E0.
  destruct (get_max_row_len_cases wall) as [[-> HM] | [Hne [n HM]]].
  { right. left. rewrite HM. simpl. auto. }
  rewrite HM. simpl bind. destruct (position >=? n - 1) eqn:E1.
  { left. split; [reflexivity|]. right. exists n. split; [reflexivity|].
    apply Z.geb_le in E1. lia. }
  right. right.
  destruct (draw_wall_border_Ok wall sign (Some position) n HM) as [line Hline].
  rewrite Hline, !and_then_Ok. simpl fst. simpl snd.
  eexists. split; [reflexivity|]. split.
  - rewrite length_app, length_app, length_map. simpl. lia.
  - split; [lia|]. exists n. split; [reflexivity|].
    rewrite Z.geb_leb in E1. apply Z.leb_gt in E1. lia.
Qed.

(** C10: draw_wall_crossline raises the edge-crossing ValueError exactly when
    [position <= 0] or [position >= get_max_row_len() - 1], and no line is
    printed when it raises; on a wall with at least one row this is its only
    error, and otherwise it prints one line per row and two borders. *)
Theorem draw_wall_crossline_edges (wall : wall_t) (sign : string) (position : Z) :
  (snd (draw_wall_crossline wall sign position) = Raise ValueError_edges <->
   (position <= 0 \/ exists n, get_max_row_len wall = Ok n /\ position >= n - 1)) /\
  (forall e, snd (draw_wall_crossline wall sign position) = Raise e ->
             fst (draw_wall_crossline wall sign position) = [] /\
             is_ValueError e = true /\
             (wall <> [] -> e = ValueError_edges)) /\
  (snd (draw_wall_crossline wall sign position) = Ok tt ->
   List.length (fst (draw_wall_crossline wall sign position))
   = (List.length wall + 2)%nat).
Proof.
  destruct (draw_wall_crossline_cases wall sign position)
    as [[-> Hc] | [[-> [Hp ->]] | (lines & -> & Hlen & Hp & n & HM & Hlt)]]; simpl.
  - split; [tauto|]. split; [|discriminate].
    intros e H. injection H as <-. auto.
  - split; [|split; [|discriminate]].
    + split; [discriminate|]. intros [H | (n & H & _)]; [lia | discriminate].
    + intros e H. injection H as <-. split; [reflexivity|]. split; [reflexivity|].
      congruence.
  - split; [|split; [discriminate | auto]].
    split; [discriminate|].
    intros [H | (n' & H & Hge)]; [lia|]. rewrite HM in H. injection H as <-. lia.
Qed.

Lemma draw_wall_crossline_edges_witness :
  snd (draw_wall_crossline demo_wall "x" 24) = Raise ValueError_edges /\
  fst (draw_wall_crossline demo_wall "x" 24) = [] /\
  List.length (fst (draw_wall_crossline demo_wall "x" 12)) = 6%nat.
Proof.
  split; [|split].
  - apply (proj1 (draw_wall_crossline_edges demo_wall "x" 24)).
    right. exists 25. split; [reflexivity | lia].
  - apply (proj1 (proj2 (draw_wall_crossline_edges demo_wall "x" 24)) ValueError_edges).
    reflexivity.
  - apply (proj2 (proj2 (draw_wall_crossline_edges demo_wall "x" 12))).
    reflexivity.
Defined.

(** ** Construction *)

Lemma all_ints_spec (wall : list (list pyobj)) :
  forallb (fun row => forallb isinstance_int row) wall = false <->
  Exists (Exists not_an_int) wall.
Proof.
  induction wall as [|row rest IH]; simpl.
  - split; [discriminate | intros H; inversion H].
  - rewrite andb_false_iff, Exists_cons, IH.
    assert (Hrow : forallb isinstance_int row = false <-> Exists not_an_int row).
    { clear. induction row as [|v row IHr]; simpl.
      - split; [discriminate | intros H; inversion H].
      - rewrite andb_false_iff, Exists_cons, IHr. reflexivity. }
    rewrite Hrow. reflexivity.
Qed.

(** C5, as stated, fails: a matrix with non-positive brick lengths is
    accepted (here with the global name [wall] bound to the same matrix, as
    in the main block). *)
Lemma nonpositive_bricks_accepted :
  BrickWall_init (Some [[PyInt 0; PyInt (-3)]]) (Some [[PyInt 0; PyInt (-3)]]) []
  = Ok ([[PyInt 0; PyInt (-3)]], []).
Proof. reflexivity. Qed.

(** C5, amended: with the module-level name [wall] bound to the supplied
    matrix, BrickWall(wall) raises TypeError, before anything else runs,
    exactly when the matrix holds a value that is not an integer; a matrix of
    integers is stored as it is, whatever the sign of its brick lengths. *)
Theorem BrickWall_init_checks_integers (wall : list (list pyobj)) (ds : draws) :
  (BrickWall_init (Some wall) (Some wall) ds = Raise TypeError_wall <->
   Exists (Exists not_an_int) wall) /\
  (BrickWall_init (Some wall) (Some wall) ds = Ok (wall, ds) <->
   ~ Exists (Exists not_an_int) wall) /\
  (forall z, BrickWall_init (Some [[PyInt z]]) (Some [[PyInt z]]) ds = Ok ([[PyInt z]], ds)).
Proof.
  split; [|split; [|reflexivity]].
  - rewrite <- all_ints_spec. unfold BrickWall_init, wall_setter.
    destruct (forallb _ wall); simpl; split; congruence.
  - rewrite <- all_ints_spec. unfold BrickWall_init, wall_setter.
    destruct (forallb _ wall); simpl; split; congruence.
Qed.

Lemma BrickWall_init_checks_integers_witness :
  BrickWall_init (Some [[PyInt 2]; [PyStr "1"; PyInt 1]])
                 (Some [[PyInt 2]; [PyStr "1"; PyInt 1]]) [] = Raise TypeError_wall.
Proof.
  apply (proj1 (BrickWall_init_checks_integers [[PyInt 2]; [PyStr "1"; PyInt 1]] [])).
  apply Exists_cons_tl, Exists_cons_hd, Exists_cons_hd. reflexivity.
Defined.

(** ** Single steps of the fill loop *)

Lemma fill_loop_step (W count : Z) (row : list Z) (r : Z) (ds : draws) :
  count < W -> 1 <= W ->
  fill_loop W count row (r :: ds) =
  if (W - 1 <=? 1 + r mod W) && (1 + r mod W <=? W) && (count =? 0)
  then Ok (row ++ [W], ds)
  else if W - count <=? 3
  then Ok (row ++ [W - count], ds)
  else if fits W count (1 + r mod W)
  then fill_loop W (count + (1 + r mod W + 1)) (row ++ [1 + r mod W]) ds
  else fill_loop W count row ds.
Proof.
  intros Hc HW. rewrite fill_loop_unfold.
  destruct (count <? W) eqn:E; [|apply Z.ltb_ge in E; lia].
  rewrite randint_value by assumption.
  replace (W - 1 + 1) with W by lia. reflexivity.
Qed.

Lemma fill_loop_starved (W count : Z) (row : list Z) :
  count < W -> 1 <= W -> fill_loop W count row [] = Starved.
Proof.
  intros Hc HW. rewrite fill_loop_unfold.
  destruct (count <? W) eqn:E; [|apply Z.ltb_ge in E; lia].
  destruct (W <? 1) eqn:E1; [apply Z.ltb_lt in E1; lia | reflexivity].
Qed.

Lemma fill_loop_last (W count : Z) (row : list Z) (r : Z) (ds : draws) :
  count < W -> 1 <= W -> count <> 0 -> W - count <= 3 ->
  fill_loop W count row (r :: ds) = Ok (row ++ [W - count], ds).
Proof.
  intros Hc HW H0 H3. rewrite fill_loop_step by assumption.
  apply Z.eqb_neq in H0. rewrite H0, andb_false_r.
  apply Z.leb_le in H3. rewrite H3. reflexivity.
Qed.

Lemma fill_loop_last_Ok (W count : Z) (row : list Z) (ds : draws)
  (row' : list Z) (ds' : draws) :
  count < W -> 1 <= W -> count <> 0 -> W - count <= 3 ->
  fill_loop W count row ds = Ok (row', ds') -> row' = row ++ [W - count].
Proof.
  intros Hc HW H0 H3. destruct ds as [|r ds].
  - rewrite fill_loop_starved by assumption. discriminate.
  - rewrite fill_loop_last by assumption. intros H. injection H as <- <-. reflexivity.
Qed.

(** ** The wall [[2], [1, 1]] *)

Lemma small_wall_first_pass (ds : draws) :
  fill_wall_with_bricks 5 false [[2]; [1; 1]] ds = Ok ([[2]; [1; 1]], ds).
Proof.
  unfold fill_wall_with_bricks. cbn [for_rows].
  rewrite (fill_row_skips (5 - 2) [2]) by (vm_compute; discriminate).
  cbn [bind].
  rewrite (fill_row_skips (5 - 2) [1; 1]) by (vm_compute; discriminate).
  reflexivity.
Qed.

Lemma small_wall_normalize (r : Z) (ds : draws) (extra : Z) :
  randint 3 max_extra_length r = Ok extra ->
  normalize_wall [[2]; [1; 1]] (r :: ds)
  = fill_wall_with_bricks (5 + extra) false [[2]; [1; 1]] ds.
Proof.
  intros Hextra. unfold normalize_wall.
  change (is_valid [[2]; [1; 1]]) with (@Ok bool false). cbn [bind].
  change (get_max_row_len [[2]; [1; 1]]) with (@Ok Z 5). cbn [bind].
  rewrite small_wall_first_pass. cbn [bind].
  change (is_valid [[2]; [1; 1]]) with (@Ok bool false). cbn [bind negb].
  unfold draw_randint. rewrite Hextra. reflexivity.
Qed.

Lemma small_wall_second_pass (W : Z) (ds : draws) (wall' : wall_t) (ds' : draws) :
  fill_wall_with_bricks (W + 2) false [[2]; [1; 1]] ds = Ok (wall', ds') ->
  exists row0 row1 ds1,
    wall' = [row0; row1] /\
    fill_loop W 3 [2] ds = Ok (row0, ds1) /\
    fill_loop W 4 [1; 1] ds1 = Ok (row1, ds').
Proof.
  unfold fill_wall_with_bricks. replace (W + 2 - 2) with W by lia.
  cbn [for_rows]. rewrite !fill_row_as_loop.
  change (sum [2] + len [2]) with 3. change (sum [1; 1] + len [1; 1]) with 4.
  intros H.
  apply outcome_bind_Ok in H. destruct H as ([wall1 d1] & H & Heq).
  injection Heq as <- <-.
  apply outcome_bind_Ok in H. destruct H as ([row0 d0] & H0 & H).
  apply outcome_bind_Ok in H. destruct H as ([rest d2] & H1 & Heq).
  injection Heq as <- <-.
  apply outcome_bind_Ok in H1. destruct H1 as ([row1 d3] & H1 & Heq).
  injection Heq as <- <-.
  exists row0, row1, d0. auto.
Qed.

(** With the extra length 4 the first row is refilled in one of three ways. *)
Lemma small_wall_row0_extra4 (ds : draws) :
  forall (row' : list Z) (ds' : draws),
    fill_loop 7 3 [2] ds = Ok (row', ds') ->
    row' = [2; 4] \/ row' = [2; 1; 2] \/ row' = [2; 2; 1].
Proof.
  induction ds as [|r ds IH]; intros row' ds'.
  - rewrite fill_loop_starved by lia. discriminate.
  - rewrite fill_loop_step by lia.
    change (3 =? 0) with false. rewrite andb_false_r.
    change (7 - 3 <=? 3) with false. cbv iota.
    pose proof (Z.mod_pos_bound r 7 ltac:(lia)) as Hr.
    destruct (fits 7 3 (1 + r mod 7)) eqn:Hfits; [|apply IH].
    apply fits_spec in Hfits.
    assert (Hnum : r mod 7 = 0 \/ r mod 7 = 1 \/ r mod 7 = 3) by lia.
    destruct Hnum as [-> | [-> | ->]].
    + change (3 + (1 + 0 + 1)) with 5. intros H.
      apply fill_loop_last_Ok in H; try lia. right. left. exact H.
    + change (3 + (1 + 1 + 1)) with 6. intros H.
      apply fill_loop_last_Ok in H; try lia. right. right. exact H.
    + change (3 + (1 + 3 + 1)) with 8. rewrite fill_loop_done by lia.
      intros H. injection H as <- <-. left. reflexivity.
Qed.

Lemma find_min_Ok (wall : wall_t) (ds : draws) (col : Z) (wall' : wall_t) (ds' : draws) :
  find_min_brick_crossline_position wall ds = Ok (col, wall', ds') ->
  col = most_shared_seam wall' /\
  ((is_valid wall = Ok true /\ wall' = wall /\ ds' = ds) \/
   (is_valid wall = Ok false /\ normalize_wall wall ds = Ok (wall', ds'))).
Proof.
  unfold find_min_brick_crossline_position. intros H.
  apply outcome_bind_Ok in H. destruct H as (valid & Hvalid & H).
  apply outcome_bind_Ok in H. destruct H as ([w d] & Hnorm & H).
  injection H as <- <- <-. split; [reflexivity|].
  destruct valid; simpl in Hnorm.
  - left. injection Hnorm as <- <-. auto.
  - right. auto.
Qed.

(** C2, as stated, fails: the wall [[2], [1, 1]] is not rectangular (row
    lengths 4 and 5), so the search first normalises it with random bricks,
    and with the draws below the answer is 6.  (Row 1's own seam is at
    column 2 in the code's counting.) *)
Lemma crossline_of_small_wall_can_be_6 :
  find_min_brick_crossline_position [[2]; [1; 1]] [2; 1; 0; 0; 0]
  = Ok (6, [[2; 2; 2]; [1; 1; 1; 2]], []) /\
  is_valid [[2]; [1; 1]] = Ok false /\
  count_all_seams [[2]; [1; 1]] [] = [(2, 1)].
Proof. repeat split. Qed.

(** C2, amended: on the wall [[2], [1, 1]] the search, whenever it returns,
    returns 3 if normalize_wall drew the extra length 3 or 4 (3 is then the
    seam after the first brick of row 0, the first column counted). *)
Theorem small_wall_crossline (r : Z) (ds : draws) (col : Z)
  (wall' : wall_t) (ds' : draws) :
  randint 3 max_extra_length r = Ok 3 \/ randint 3 max_extra_length r = Ok 4 ->
  find_min_brick_crossline_position [[2]; [1; 1]] (r :: ds) = Ok (col, wall', ds') ->
  col = 3.
Proof.
  intros Hextra H. apply find_min_Ok in H. destruct H as [-> [[Hv _] | [_ H]]].
  { discriminate Hv. }
  destruct Hextra as [Hextra | Hextra]; rewrite (small_wall_normalize _ _ _ Hextra) in H.
  - apply (small_wall_second_pass 6) in H.
    destruct H as (row0 & row1 & ds1 & -> & H0 & H1).
    apply fill_loop_last_Ok in H0; try lia.
    apply fill_loop_last_Ok in H1; try lia.
    subst. reflexivity.
  - apply (small_wall_second_pass 7) in H.
    destruct H as (row0 & row1 & ds1 & -> & H0 & H1).
    apply small_wall_row0_extra4 in H0.
    apply fill_loop_last_Ok in H1; try lia.
    subst row1. destruct H0 as [-> | [-> | ->]]; reflexivity.
Qed.

Lemma small_wall_crossline_witness :
  most_shared_seam [[2; 1; 2]; [1; 1; 3]] = 3.
Proof.
  symmetry.
  apply (small_wall_crossline 1 [0; 0; 0] (most_shared_seam [[2; 1; 2]; [1; 1; 3]])
           [[2; 1; 2]; [1; 1; 3]] []).
  - right. reflexivity.
  - reflexivity.
Defined.

(** ** Termination of the fill loop *)

Lemma segment_S (s : nat -> Z) (a n : nat) :
  segment s a (S n) = s a :: segment s (S a) n.
Proof. reflexivity. Qed.

Lemma segment_add (s : nat -> Z) (a n m : nat) :
  segment s a (n + m) = segment s a n ++ segment s (a + n) m.
Proof. unfold segment. rewrite seq_app, map_app. reflexivity. Qed.

Lemma stuck_draws_tail (n : nat) :
  forall a, segment stuck_draws (S a) n = repeat 8 n.
Proof.
  induction n as [|n IH]; intros a; [reflexivity|].
  rewrite segment_S, IH. reflexivity.
Qed.

Lemma stuck_loop (n : nat) : fill_loop 10 2 [1] (repeat 8 n) = Starved.
Proof.
  induction n as [|n IH].
  - reflexivity.
  - simpl repeat. rewrite fill_loop_step by lia. exact IH.
Qed.

Lemma stuck_row (n : nat) : fill_row 10 [] (prefix stuck_draws n) = Starved.
Proof.
  destruct n as [|n]; [reflexivity|].
  unfold prefix. rewrite segment_S, stuck_draws_tail.
  rewrite fill_row_as_loop. change (sum [] + len (@nil Z)) with 0.
  rewrite fill_loop_step by lia. exact (stuck_loop n).
Qed.

(** C8, as stated, fails: for the width 10 (total length 12) and the draws
    1, 9, 9, 9, ... the loop accepts the brick 1 and then rejects every
    candidate 9, so no finite prefix of the draws lets it finish. *)
Lemma fill_loop_may_reject_for_ever :
  ~ exists n, fill_row 10 [] (prefix stuck_draws n) <> Starved.
Proof. intros [n H]. apply H. apply stuck_row. Qed.

(** One row, from any point [a] of a draw sequence that keeps fitting. *)
Lemma fill_loop_finishes (W : Z) (s : nat -> Z) :
  1 <= W -> keeps_fitting W s ->
  forall (k : nat) (count : Z) (row : list Z) (a : nat),
    W - count <= Z.of_nat k ->
    exists n row', forall rest,
      fill_loop W count row (segment s a n ++ rest) = Ok (row', rest).
Proof.
  intros HW Hfair. induction k as [|k IHk]; intros count row a Hk.
  { exists O, row. intros rest. apply fill_loop_done. lia. }
  destruct (Z.le_gt_cases W count) as [Hdone|Hc].
  { exists O, row. intros rest. apply fill_loop_done. lia. }
  destruct (Z.le_gt_cases (W - count) 3) as [Hlast|Hroom].
  { (* the next draw ends the row, whatever it is *)
    exists 1%nat.
    destruct ((W - 1 <=? 1 + s a mod W) && (1 + s a mod W <=? W) && (count =? 0)) eqn:E.
    - exists (row ++ [W]). intros rest.
      rewrite segment_S. simpl app. rewrite fill_loop_step, E by lia. reflexivity.
    - exists (row ++ [W - count]). intros rest.
      rewrite segment_S. simpl app. rewrite fill_loop_step, E by lia.
      apply Z.leb_le in Hlast. rewrite Hlast. reflexivity. }
  (* the accept/reject test: wait for the next fitting draw *)
  destruct (Hfair a count ltac:(lia)) as (m & num & Hm & Hnum & Hfits).
  rewrite randint_value in Hnum by lia. replace (W - 1 + 1) with W in Hnum by lia.
  injection Hnum as <-.
  assert (Hwait : forall d a',
             fits W count (1 + s (a' + d)%nat mod W) = true ->
             exists n row', forall rest,
               fill_loop W count row (segment s a' n ++ rest) = Ok (row', rest)).
  { induction d as [|d IHd]; intros a' Hd.
    - rewrite Nat.add_0_r in Hd.
      pose proof (Z.mod_pos_bound (s a') W ltac:(lia)) as Hr.
      destruct ((W - 1 <=? 1 + s a' mod W) && (1 + s a' mod W <=? W) && (count =? 0)) eqn:E.
      + exists 1%nat, (row ++ [W]). intros rest.
        rewrite segment_S. simpl app. rewrite fill_loop_step, E by lia. reflexivity.
      + destruct (IHk (count + (1 + s a' mod W + 1)) (row ++ [1 + s a' mod W]) (S a')
                    ltac:(lia)) as (n & row' & Hn).
        exists (S n), row'. intros rest.
        rewrite segment_S. simpl app. rewrite fill_loop_step, E by lia.
        apply Z.leb_gt in Hroom. rewrite Hroom, Hd. apply Hn.
    - pose proof (Z.mod_pos_bound (s a') W ltac:(lia)) as Hr.
      destruct ((W - 1 <=? 1 + s a' mod W) && (1 + s a' mod W <=? W) && (count =? 0)) eqn:E.
      + exists 1%nat, (row ++ [W]). intros rest.
        rewrite segment_S. simpl app. rewrite fill_loop_step, E by lia. reflexivity.
      + destruct (fits W count (1 + s a' mod W)) eqn:Hfit.
        * destruct (IHk (count + (1 + s a' mod W + 1)) (row ++ [1 + s a' mod W]) (S a')
                      ltac:(lia)) as (n & row' & Hn).
          exists (S n), row'. intros rest.
          rewrite segment_S. simpl app. rewrite fill_loop_step, E by lia.
          apply Z.leb_gt in Hroom. rewrite Hroom, Hfit. apply Hn.
        * destruct (IHd (S a')) as (n & row' & Hn).
          { replace (S a' + d)%nat with (a' + S d)%nat by lia. exact Hd. }
          exists (S n), row'. intros rest.
          rewrite segment_S. simpl app. rewrite fill_loop_step, E by lia.
          apply Z.leb_gt in Hroom. rewrite Hroom, Hfit. apply Hn. }
  apply (Hwait (m - a)%nat a).
  replace (a + (m - a))%nat with m by lia. exact Hfits.
Qed.

Lemma fill_row_finishes (W : Z) (s : nat -> Z) (row : list Z) (a : nat) :
  1 <= W -> keeps_fitting W s ->
  exists n row', forall rest, fill_row W row (segment s a n ++ rest) = Ok (row', rest).
Proof.
  intros HW Hfair.
  destruct (fill_loop_finishes W s HW Hfair (Z.to_nat (W - (sum row + len row)))
              (sum row + len row) row a ltac:(lia)) as (n & row' & H).
  exists n, row'. intros rest. rewrite fill_row_as_loop. apply H.
Qed.

Lemma shuffle_from_finishes (s : nat -> Z) (i : nat) :
  forall (x : list Z) (a : nat),
    exists x', forall rest, shuffle_from i x (segment s a i ++ rest) = Ok (x', rest).
Proof.
  induction i as [|i IH]; intros x a.
  - exists x. reflexivity.
  - destruct (IH (swap x (S i) (Z.to_nat (s a mod Z.of_nat (S i + 1)))) (S a)) as [x' H].
    exists x'. intros rest. rewrite segment_S. exact (H rest).
Qed.

Lemma for_rows_finishes (f : list Z -> draws -> outcome (list Z * draws)) (s : nat -> Z) :
  (forall row a, exists n row', forall rest, f row (segment s a n ++ rest) = Ok (row', rest)) ->
  forall wall a,
    exists n wall', forall rest, for_rows f wall (segment s a n ++ rest) = Ok (wall', rest).
Proof.
  intros Hf. induction wall as [|row wall IH]; intros a.
  - exists O, []. reflexivity.
  - destruct (Hf row a) as (n1 & row' & H1).
    destruct (IH (a + n1)%nat) as (n2 & wall' & H2).
    exists (n1 + n2)%nat, (row' :: wall'). intros rest.
    rewrite segment_add, <- app_assoc. cbn [for_rows].
    rewrite H1. cbn [bind]. rewrite H2. reflexivity.
Qed.

Lemma fill_wall_finishes (total : Z) (shuffle_rows : bool) (wall : wall_t)
  (s : nat -> Z) (a : nat) :
  3 <= total -> keeps_fitting (total - 2) s ->
  exists n wall', forall rest,
    fill_wall_with_bricks total shuffle_rows wall (segment s a n ++ rest) = Ok (wall', rest).
Proof.
  intros Htotal Hfair. unfold fill_wall_with_bricks.
  destruct (for_rows_finishes (fill_row (total - 2)) s) with (wall := wall) (a := a)
    as (n1 & wall1 & H1).
  { intros row a'. apply fill_row_finishes; [lia | assumption]. }
  destruct shuffle_rows.
  - destruct (for_rows_finishes shuffle s) with (wall := wall1) (a := (a + n1)%nat)
      as (n2 & wall2 & H2).
    { intros row a'. destruct (shuffle_from_finishes s (List.length row - 1) row a') as [x' H].
      exists (List.length row - 1)%nat, x'. exact H. }
    exists (n1 + n2)%nat, wall2. intros rest.
    rewrite segment_add, <- app_assoc, H1. cbn [bind]. apply H2.
  - exists n1, wall1. intros rest. rewrite H1. reflexivity.
Qed.

(** C8, amended: for every width [W >= 1] (total length [W + 2]) the fill
    loop of a row, and fill_wall_with_bricks on a whole wall, terminate on
    every draw sequence that keeps fitting, that is, in which from any point
    on some draw still passes the accept/reject test; nothing bounds the
    number of rejected draws before that. *)
Theorem fill_loop_terminates_when_fitting (total : Z) (s : nat -> Z) :
  3 <= total -> keeps_fitting (total - 2) s ->
  (forall row, exists n row', fill_row (total - 2) row (prefix s n) = Ok (row', [])) /\
  (forall shuffle_rows wall,
      exists n wall',
        fill_wall_with_bricks total shuffle_rows wall (prefix s n) = Ok (wall', [])).
Proof.
  intros Htotal Hfair. split.
  - intros row.
    destruct (fill_row_finishes (total - 2) s row 0 ltac:(lia) Hfair) as (n & row' & H).
    exists n, row'. specialize (H []). rewrite app_nil_r in H. exact H.
  - intros sh wall.
    destruct (fill_wall_finishes total sh wall s 0 Htotal Hfair) as (n & wall' & H).
    exists n, wall'. specialize (H []). rewrite app_nil_r in H. exact H.
Qed.

Lemma fill_loop_terminates_when_fitting_witness :
  (forall row, exists n row',
      fill_row (12 - 2) row (prefix (fun _ => 0) n) = Ok (row', [])) /\
  (forall shuffle_rows wall,
      exists n wall',
        fill_wall_with_bricks 12 shuffle_rows wall (prefix (fun _ => 0) n) = Ok (wall', [])).
Proof.
  apply (fill_loop_terminates_when_fitting 12 (fun _ => 0)).
  - lia.
  - intros a count H. exists a, 1. split; [lia|]. split; [reflexivity|].
    apply fits_spec. lia.
Defined.

(** ** No exception on a wall of positive bricks *)

Lemma fill_loop_no_raise (W : Z) (e : exn) (ds : draws) :
  1 <= W -> forall count row, fill_loop W count row ds <> Raise e.
Proof.
  intros HW. induction ds as [|r ds IH]; intros count row; rewrite fill_loop_unfold.
  - destruct (count <? W); [|discriminate].
    destruct (W <? 1) eqn:E; [apply Z.ltb_lt in E; lia | discriminate].
  - destruct (count <? W); [|discriminate].
    rewrite randint_value by assumption.
    repeat match goal with |- context [if ?b then _ else _] => destruct b end;
      try discriminate; apply IH.
Qed.

Lemma positive_row_count (row : list Z) : positive_row row -> 0 <= sum row + len row.
Proof.
  induction 1 as [|b row Hb _ IH].
  - vm_compute. discriminate.
  - rewrite sum_cons, len_cons. lia.
Qed.

Lemma fill_row_no_raise (W : Z) (e : exn) (row : list Z) (ds : draws) :
  positive_row row -> fill_row W row ds <> Raise e.
Proof.
  intros Hrow. rewrite fill_row_as_loop.
  destruct (Z.le_gt_cases 1 W) as [HW|HW].
  - apply fill_loop_no_raise. assumption.
  - rewrite fill_loop_done; [discriminate|].
    pose proof (positive_row_count row Hrow). lia.
Qed.

Lemma shuffle_from_no_raise (e : exn) (i : nat) :
  forall x ds, shuffle_from i x ds <> Raise e.
Proof.
  induction i as [|i IH]; intros x ds; simpl; [discriminate|].
  destruct ds; [discriminate | apply IH].
Qed.

Lemma for_rows_no_raise (f : list Z -> draws -> outcome (list Z * draws))
  (P : list Z -> Prop) (e : exn) :
  (forall row ds, P row -> f row ds <> Raise e) ->
  forall wall ds, Forall P wall -> for_rows f wall ds <> Raise e.
Proof.
  intros Hf. induction wall as [|row wall IH]; intros ds HP; simpl; [discriminate|].
  inversion HP as [|? ? Hrow Hwall]; subst.
  destruct (f row ds) as [[row' ds1]| |] eqn:E; simpl; try discriminate.
  - destruct (for_rows f wall ds1) as [[wall' ds2]| |] eqn:E2; simpl; try discriminate.
    intros H. apply (IH ds1 Hwall). congruence.
  - intros H. apply (Hf row ds Hrow). congruence.
Qed.

Lemma fill_wall_no_raise (total : Z) (shuffle_rows : bool) (wall : wall_t)
  (ds : draws) (e : exn) :
  positive_wall wall -> fill_wall_with_bricks total shuffle_rows wall ds <> Raise e.
Proof.
  intros Hpos. unfold fill_wall_with_bricks.
  destruct (for_rows (fill_row (total - 2)) wall ds) as [[wall1 ds1]| |] eqn:E;
    simpl; try discriminate.
  - destruct shuffle_rows; [|discriminate].
    apply for_rows_no_raise with (P := fun _ => True).
    + intros row d _. apply shuffle_from_no_raise.
    + apply Forall_forall. auto.
  - intros H. revert E. apply for_rows_no_raise with (P := positive_row).
    + intros row d Hrow. injection H as <-. apply fill_row_no_raise. assumption.
    + injection H as <-. assumption.
Qed.


(** ** Dictionaries *)

Lemma dict_get_set (d : dict) (k v k' default : Z) :
  dict_get (dict_set d k v) k' default
  = if k =? k' then v else dict_get d k' default.
Proof.
  induction d as [|[a w] rest IH]; simpl.
  - reflexivity.
  - destruct (a =? k) eqn:Eak; simpl.
    + apply Z.eqb_eq in Eak. subst a. destruct (k =? k'); reflexivity.
    + rewrite IH. destruct (a =? k') eqn:Eak'; [|reflexivity].
      apply Z.eqb_eq in Eak'. subst a. rewrite Z.eqb_sym, Eak. reflexivity.
Qed.

Lemma dict_set_keys (d : dict) (k v : Z) :
  (In k (map fst d) /\ map fst (dict_set d k v) = map fst d) \/
  (~ In k (map fst d) /\ map fst (dict_set d k v) = map fst d ++ [k]).
Proof.
  induction d as [|[a w] rest IH]; simpl.
  - right. split; [tauto | reflexivity].
  - destruct (a =? k) eqn:Eak; simpl.
    + apply Z.eqb_eq in Eak. left. split; [left; assumption | reflexivity].
    + apply Z.eqb_neq in Eak. destruct IH as [[Hin Heq] | [Hnin Heq]]; rewrite Heq.
      * left. split; [right; assumption | reflexivity].
      * right. split; [intros [H|H]; contradiction | reflexivity].
Qed.

Lemma occurrences_cons (a : Z) (s : str) (c : Z) :
  occurrences (a :: s) c = (if a =? c then 1 else 0) + occurrences s c.
Proof.
  unfold occurrences. destruct (a =? c) eqn:E.
  - apply Z.eqb_eq in E. rewrite count_occ_cons_eq by assumption. lia.
  - apply Z.eqb_neq in E. rewrite count_occ_cons_neq by assumption. lia.
Qed.

Lemma occurrences_app (s1 s2 : str) (c : Z) :
  occurrences (s1 ++ s2) c = occurrences s1 c + occurrences s2 c.
Proof. unfold occurrences. rewrite count_occ_app. lia. Qed.

Lemma occurrences_nonneg (s : str) (c : Z) : 0 <= occurrences s c.
Proof. unfold occurrences. lia. Qed.

Lemma occurrences_In (s : str) (c : Z) : In c s <-> 1 <= occurrences s c.
Proof.
  unfold occurrences. rewrite (count_occ_In Z.eq_dec). lia.
Qed.

(** ** find_first_unique *)

Lemma Counter_from (s : str) :
  forall (d : dict) (c : Z),
    dict_get
      (fold_left (fun counts symbol =>
                    dict_set counts symbol (dict_get counts symbol 0 + 1)) s d) c 0
    = dict_get d c 0 + occurrences s c.
Proof.
  induction s as [|a s IH]; intros d c; simpl fold_left.
  - unfold occurrences. simpl. lia.
  - rewrite IH, dict_get_set, occurrences_cons.
    destruct (a =? c) eqn:E; [|lia].
    apply Z.eqb_eq in E. subst a. lia.
Qed.

Lemma Counter_counts (s : str) (c : Z) :
  dict_get (Counter s) c 0 = occurrences s c.
Proof. unfold Counter. rewrite Counter_from. reflexivity. Qed.

Lemma first_counted_once_spec (counts : dict) (s : str) :
  (first_counted_once counts s = [] /\
   Forall (fun x => dict_get counts x 0 <> 1) s) \/
  (exists pre c post,
      s = pre ++ c :: post /\
      first_counted_once counts s = [c] /\
      dict_get counts c 0 = 1 /\
      Forall (fun x => dict_get counts x 0 <> 1) pre).
Proof.
  induction s as [|a s IH]; simpl.
  - left. split; [reflexivity | constructor].
  - destruct (dict_get counts a 0 =? 1) eqn:E.
    + apply Z.eqb_eq in E. right. exists [], a, s. repeat split; auto.
    + apply Z.eqb_neq in E. destruct IH as [[Hnone Hall] | (pre & c & post & -> & Hres & Hc & Hpre)].
      * left. split; [assumption | constructor; assumption].
      * right. exists (a :: pre), c, post. repeat split; auto.
Qed.

Lemma find_first_unique_cases (s : str) :
  (find_first_unique s = [] /\ forall c, In c s -> 2 <= occurrences s c) \/
  (exists pre c post,
      s = pre ++ c :: post /\
      find_first_unique s = [c] /\
      occurrences s c = 1 /\
      Forall (fun x => 2 <= occurrences s x) pre).
Proof.
  unfold find_first_unique.
  destruct (first_counted_once_spec (Counter s) s)
    as [[Hnone Hall] | (pre & c & post & Hs & Hres & Hc & Hpre)].
  - left. split; [assumption|]. intros c Hin.
    rewrite Forall_forall in Hall. specialize (Hall c Hin).
    rewrite Counter_counts in Hall. apply occurrences_In in Hin. lia.
  - right. exists pre, c, post. rewrite Counter_counts in Hc.
    repeat split; try assumption.
    apply Forall_forall. intros x Hx. rewrite Forall_forall in Hpre.
    specialize (Hpre x Hx). rewrite Counter_counts in Hpre.
    assert (In x s) by (rewrite Hs; apply in_or_app; left; assumption).
    apply occurrences_In in H. lia.
Qed.

Lemma first_counted_once_at (counts : dict) (pre : str) (c : Z) (post : str) :
  Forall (fun x => dict_get counts x 0 <> 1) pre ->
  dict_get counts c 0 = 1 ->
  first_counted_once counts (pre ++ c :: post) = [c].
Proof.
  intros Hpre Hc. induction Hpre as [|a pre Ha _ IH]; simpl.
  - rewrite Hc. reflexivity.
  - apply Z.eqb_neq in Ha. rewrite Ha. exact IH.
Qed.

Lemma first_counted_once_none (counts : dict) (s : str) :
  Forall (fun x => dict_get counts x 0 <> 1) s ->
  first_counted_once counts s = [].
Proof.
  induction 1 as [|a s Ha _ IH]; simpl; [reflexivity|].
  apply Z.eqb_neq in Ha. rewrite Ha. exact IH.
Qed.

Lemma find_first_unique_none (s : str) :
  find_first_unique s = [] <-> (forall c, In c s -> 2 <= occurrences s c).
Proof.
  split.
  - intros H. destruct (find_first_unique_cases s)
      as [[_ Hall] | (pre & c & post & _ & Hres & _)]; [assumption | congruence].
  - intros Hall. unfold find_first_unique. apply first_counted_once_none.
    apply Forall_forall. intros x Hx. rewrite Counter_counts.
    specialize (Hall x Hx). lia.
Qed.

Lemma find_first_unique_some (s : str) (c : Z) :
  find_first_unique s = [c] <->
  (exists pre post,
      s = pre ++ c :: post /\ occurrences s c = 1 /\
      Forall (fun x => 2 <= occurrences s x) pre).
Proof.
  split.
  - intros H. destruct (find_first_unique_cases s)
      as [[Hnone _] | (pre & c0 & post & Hs & Hres & Hc & Hpre)]; [congruence|].
    assert (c0 = c) by congruence. subst c0. exists pre, post. auto.
  - intros (pre & post & Hs & Hc & Hpre). unfold find_first_unique.
    subst s. apply first_counted_once_at.
    + eapply Forall_impl; [|exact Hpre]. intros x Hx. cbv beta in Hx.
      rewrite Counter_counts. lia.
    + rewrite Counter_counts. assumption.
Qed.

Lemma find_first_unique_short (s : str) :
  find_first_unique s = [] \/ exists c, find_first_unique s = [c] /\ occurrences s c = 1.
Proof.
  destruct (find_first_unique_cases s)
    as [[Hnone _] | (pre & c & post & _ & Hres & Hc & _)]; [left | right]; eauto.
Qed.

Lemma find_first_unique_single (c : Z) : find_first_unique [c] = [c].
Proof.
  unfold find_first_unique, Counter. simpl. rewrite Z.eqb_refl. reflexivity.
Qed.

Lemma find_first_unique_again (s : str) :
  find_first_unique (find_first_unique s) = find_first_unique s.
Proof.
  destruct (find_first_unique_short s) as [-> | (c & -> & _)].
  - reflexivity.
  - apply find_first_unique_single.
Qed.

(** ** findall and solution *)

Lemma findall_run (is_word : Z -> bool) (w : str) :
  Forall (fun c => in_class is_word c = true) w ->
  forall rest word,
    findall is_word (w ++ rest) word = findall is_word rest (word ++ w).
Proof.
  induction 1 as [|c w Hc _ IH]; intros rest word; simpl.
  - rewrite app_nil_r. reflexivity.
  - rewrite Hc, IH, <- app_assoc. reflexivity.
Qed.

Lemma findall_concat (is_word : Z -> bool) (text : str) :
  forall word,
    List.concat (findall is_word text word) = word ++ filter (in_class is_word) text.
Proof.
  induction text as [|c text IH]; intros word; simpl.
  - destruct word; simpl; rewrite ?app_nil_r; reflexivity.
  - destruct (in_class is_word c).
    + rewrite IH, <- app_assoc. reflexivity.
    + destruct word as [|a word]; simpl; rewrite IH; reflexivity.
Qed.

Lemma findall_words (is_word : Z -> bool) (text : str) :
  forall word,
    Forall (fun c => in_class is_word c = true) word ->
    Forall (fun w => w <> [] /\ Forall (fun c => in_class is_word c = true) w)
           (findall is_word text word).
Proof.
  induction text as [|c text IH]; intros word Hword; simpl.
  - destruct word; constructor; [|constructor]. split; [discriminate | assumption].
  - destruct (in_class is_word c) eqn:Hc.
    + apply IH. apply Forall_app. split; [assumption | constructor; auto].
    + destruct word as [|a word].
      * apply IH. constructor.
      * constructor; [split; [discriminate | assumption] | apply IH; constructor].
Qed.

Lemma in_concat_symbols (words : list str) (c : Z) :
  In c (List.concat (map find_first_unique words)) ->
  exists word, In word words /\ find_first_unique word = [c] /\ occurrences word c = 1.
Proof.
  rewrite in_concat. intros (sym & Hsym & Hc).
  apply in_map_iff in Hsym. destruct Hsym as (word & <- & Hword).
  exists word. split; [assumption|].
  destruct (find_first_unique_short word) as [E | (c0 & E & Hocc)]; rewrite E in Hc.
  - destruct Hc.
  - destruct Hc as [<- | []]. auto.
Qed.

Lemma solution_cases (is_word : Z -> bool) (text : str) :
  solution is_word text = [] \/
  exists c word,
    solution is_word text = [c] /\
    In word (findall is_word text []) /\
    find_first_unique word = [c] /\ occurrences word c = 1 /\
    In c text /\ in_class is_word c = true.
Proof.
  unfold solution.
  destruct (find_first_unique_short
              (List.concat (map find_first_unique (findall is_word text []))))
    as [E | (c & E & Hocc)]; [left; assumption|].
  right. assert (Hin : In c (List.concat (map find_first_unique (findall is_word text []))))
    by (apply occurrences_In; lia).
  apply in_concat_symbols in Hin. destruct Hin as (word & Hword & Hfirst & Hone).
  exists c, word. repeat split; try assumption.
  - assert (Hc : In c (List.concat (findall is_word text []))).
    { apply in_concat. exists word. split; [assumption|]. apply occurrences_In. lia. }
    rewrite findall_concat in Hc. simpl in Hc. apply filter_In in Hc. tauto.
  - assert (Hc : In c (List.concat (findall is_word text []))).
    { apply in_concat. exists word. split; [assumption|]. apply occurrences_In. lia. }
    rewrite findall_concat in Hc. simpl in Hc. apply filter_In in Hc. tauto.
Qed.

(** ** Counting keys into a dictionary *)

Lemma tally_cons (k : Z) (l : list Z) (d : dict) :
  tally (k :: l) d = tally l (dict_set d k (dict_get d k 0 + 1)).
Proof. reflexivity. Qed.

Lemma tally_app (l1 l2 : list Z) (d : dict) :
  tally (l1 ++ l2) d = tally l2 (tally l1 d).
Proof. unfold tally. apply fold_left_app. Qed.

Lemma tally_get (l : list Z) (d : dict) (k : Z) :
  dict_get (tally l d) k 0 = dict_get d k 0 + occurrences l k.
Proof. apply Counter_from. Qed.

Lemma count_seams_tally (bricks : list Z) :
  forall count d, count_seams bricks count d = tally (seams_from count bricks) d.
Proof.
  induction bricks as [|b bricks IH]; intros count d; cbn [count_seams seams_from].
  - reflexivity.
  - rewrite IH, tally_cons. reflexivity.
Qed.

Lemma count_all_seams_tally (wall : wall_t) :
  forall d, count_all_seams wall d = tally (all_seams wall) d.
Proof.
  induction wall as [|row wall IH]; intros d; cbn [count_all_seams].
  - reflexivity.
  - rewrite IH, count_seams_tally. unfold all_seams. cbn [map List.concat].
    rewrite tally_app. reflexivity.
Qed.

Lemma dict_set_keys_ext (d : dict) (k v : Z) :
  exists ext, map fst (dict_set d k v) = map fst d ++ ext /\
              (forall x, In x ext -> x = k) /\
              In k (map fst (dict_set d k v)).
Proof.
  destruct (dict_set_keys d k v) as [[Hin ->] | [Hnin ->]].
  - exists []. rewrite app_nil_r. split; [reflexivity|]. split; [intros x []|assumption].
  - exists [k]. split; [reflexivity|]. split.
    + intros x [<- | []]. reflexivity.
    + apply in_or_app. right. left. reflexivity.
Qed.

Lemma dict_set_keys_NoDup (d : dict) (k v : Z) :
  NoDup (map fst d) -> NoDup (map fst (dict_set d k v)).
Proof.
  intros H. destruct (dict_set_keys d k v) as [[Hin ->] | [Hnin ->]]; [assumption|].
  apply NoDup_app; [assumption | constructor; [intros [] | constructor] |].
  intros x Hx [<- | []]. contradiction.
Qed.

Lemma tally_keys_NoDup (l : list Z) :
  forall d, NoDup (map fst d) -> NoDup (map fst (tally l d)).
Proof.
  induction l as [|k l IH]; intros d H; [assumption|].
  rewrite tally_cons. apply IH. apply dict_set_keys_NoDup. assumption.
Qed.

Lemma tally_keys_ext (l : list Z) :
  forall d, exists ext,
    map fst (tally l d) = map fst d ++ ext /\
    (forall x, In x ext -> In x l) /\
    (forall x, In x l -> In x (map fst (tally l d))).
Proof.
  induction l as [|k l IH]; intros d.
  - exists []. rewrite app_nil_r. split; [reflexivity|]. split; intros x [].
  - rewrite tally_cons.
    destruct (IH (dict_set d k (dict_get d k 0 + 1))) as (ext & Heq & Hext & Hin).
    destruct (dict_set_keys_ext d k (dict_get d k 0 + 1)) as (e1 & He1 & Hk & Hkin).
    exists (e1 ++ ext). split; [|split].
    + rewrite Heq, He1, <- app_assoc. reflexivity.
    + intros x Hx. apply in_app_or in Hx. destruct Hx as [Hx|Hx].
      * left. symmetry. apply Hk. assumption.
      * right. apply Hext. assumption.
    + intros x [<- | Hx].
      * rewrite Heq. apply in_or_app. left. assumption.
      * apply Hin. assumption.
Qed.

(** A list that starts with [K] and is cut at an [x] outside [K]. *)
Lemma prefix_before (K ext l1 l2 : list Z) (x : Z) :
  K ++ ext = l1 ++ x :: l2 -> ~ In x K -> exists m, l1 = K ++ m.
Proof.
  revert l1. induction K as [|a K IH]; intros l1 Heq Hx.
  - exists l1. reflexivity.
  - destruct l1 as [|b l1]; simpl in Heq.
    + injection Heq as -> _. exfalso. apply Hx. left. reflexivity.
    + injection Heq as <- Heq. destruct (IH l1 Heq) as [m ->].
      { intros H. apply Hx. right. assumption. }
      exists m. reflexivity.
Qed.

(** The keys come in the order of their first occurrence in the list. *)
Lemma tally_keys_first (l : list Z) :
  forall (d : dict) (l1 l2 : list Z) (x : Z),
    map fst (tally l d) = l1 ++ x :: l2 ->
    ~ In x (map fst d) ->
    exists pre post, l = pre ++ x :: post /\ (forall k, In k pre -> In k l1).
Proof.
  induction l as [|a l IH]; intros d l1 l2 x Heq Hx.
  - exfalso. apply Hx. simpl in Heq. rewrite Heq. apply in_or_app. right. left. reflexivity.
  - rewrite tally_cons in Heq.
    destruct (Z.eq_dec a x) as [->|Hax].
    + exists [], l. split; [reflexivity | intros k []].
    + destruct (IH _ l1 l2 x Heq) as (pre & post & -> & Hpre).
      { destruct (dict_set_keys d a (dict_get d a 0 + 1)) as [[_ ->] | [_ ->]]; [assumption|].
        intros H. apply in_app_or in H. destruct H as [H | [H | []]]; [contradiction | congruence]. }
      exists (a :: pre), post. split; [reflexivity|].
      intros k [<- | Hk]; [|apply Hpre; assumption].
      destruct (tally_keys_ext (pre ++ x :: post) (dict_set d a (dict_get d a 0 + 1)))
        as (ext & Hkeys & _ & _).
      destruct (dict_set_keys_ext d a (dict_get d a 0 + 1)) as (e1 & He1 & He1k & Hain).
      rewrite Hkeys in Heq.
      destruct (prefix_before _ _ _ _ _ Heq) as [m ->].
      { rewrite He1. intros H. apply in_app_or in H. destruct H as [H|H].
        - contradiction.
        - apply He1k in H. congruence. }
      apply in_or_app. left. assumption.
Qed.

(** ** max with a key *)

Lemma max_by_key_first (f : Z -> Z) (keys : list Z) :
  forall best,
    exists l1 l2,
      best :: keys = l1 ++ max_by_key f best keys :: l2 /\
      (forall k, In k l1 -> f k < f (max_by_key f best keys)) /\
      (forall k, In k l2 -> f k <= f (max_by_key f best keys)) /\
      f best <= f (max_by_key f best keys).
Proof.
  induction keys as [|k keys IH]; intros best; simpl.
  - exists [], []. repeat split; try (intros k []); lia.
  - destruct (f k >? f best) eqn:E.
    + rewrite Z.gtb_ltb in E. apply Z.ltb_lt in E.
      destruct (IH k) as (l1 & l2 & Heq & H1 & H2 & Hb).
      exists (best :: l1), l2. split; [simpl; f_equal; exact Heq|].
      split; [|split; [assumption | lia]].
      intros x [<- | Hx]; [lia | auto].
    + rewrite Z.gtb_ltb in E. apply Z.ltb_ge in E.
      destruct (IH best) as (l1 & l2 & Heq & H1 & H2 & Hb).
      destruct l1 as [|b l1]; simpl in Heq.
      * injection Heq as Hbest Hkeys. exists [], (k :: l2).
        split; [simpl; f_equal; [exact Hbest | f_equal; exact Hkeys]|].
        split; [intros x []|]. split; [|lia].
        intros x [<- | Hx]; [rewrite <- Hbest; lia | auto].
      * injection Heq as <- Hkeys. exists (best :: k :: l1), l2.
        split; [simpl; do 2 f_equal; exact Hkeys|].
        assert (Hlt : f best < f (max_by_key f best keys)) by (apply H1; left; reflexivity).
        split; [|split; [assumption | lia]].
        intros x [<- | [<- | Hx]]; [assumption | lia | apply H1; right; assumption].
Qed.

(** ** Seams *)

Lemma seams_from_bounds (bricks : list Z) :
  positive_row bricks ->
  forall count k,
    In k (seams_from count bricks) ->
    count + 2 <= k <= count + sum bricks + len bricks.
Proof.
  induction 1 as [|b bricks Hb Hrest IH]; intros count k; simpl.
  - intros [].
  - rewrite sum_cons, len_cons. pose proof (positive_row_count bricks Hrest) as Hc.
    intros [<- | Hk]; [lia|].
    apply IH in Hk. lia.
Qed.

Lemma row_split_last (row : list Z) :
  row <> [] -> row = removelast row ++ [last row 0].
Proof. apply app_removelast_last. Qed.

Lemma seams_bounds (row : list Z) (k : Z) :
  positive_row row -> In k (seams row) -> 2 <= k <= row_len row - 3.
Proof.
  intros Hpos Hk. unfold seams in Hk.
  destruct row as [|b row]; [destruct Hk|].
  pose proof (row_split_last (b :: row) ltac:(discriminate)) as Hsplit.
  assert (Hparts : positive_row (removelast (b :: row)) /\ 1 <= last (b :: row) 0).
  { unfold positive_row in *. rewrite Hsplit in Hpos. apply Forall_app in Hpos.
    destruct Hpos as [H1 H2]. split; [assumption|]. inversion H2; assumption. }
  destruct Hparts as [Hfront Hlast].
  apply (seams_from_bounds _ Hfront) in Hk.
  pose proof (count_snoc (removelast (b :: row)) (last (b :: row) 0)) as Hc.
  rewrite <- Hsplit in Hc. unfold row_len. lia.
Qed.

Lemma seams_nil_iff (row : list Z) : seams row = [] <-> (List.length row <= 1)%nat.
Proof.
  unfold seams. destruct row as [|a [|b row]]; simpl.
  - split; [lia | reflexivity].
  - split; [lia | reflexivity].
  - split; [discriminate | lia].
Qed.

Lemma all_seams_In (wall : wall_t) (k : Z) :
  In k (all_seams wall) <-> exists row, In row wall /\ In k (seams row).
Proof.
  unfold all_seams. rewrite in_concat. split.
  - intros (l & Hl & Hk). apply in_map_iff in Hl. destruct Hl as (row & <- & Hrow). eauto.
  - intros (row & Hrow & Hk). exists (seams row). split; [apply in_map; assumption | assumption].
Qed.

Lemma all_seams_nil_iff (wall : wall_t) :
  all_seams wall = [] <-> Forall (fun row => (List.length row <= 1)%nat) wall.
Proof.
  induction wall as [|row wall IH]; unfold all_seams; simpl.
  - split; [constructor | reflexivity].
  - fold (all_seams wall). split.
    + intros H. apply app_eq_nil in H. destruct H as [H1 H2].
      constructor; [apply seams_nil_iff; assumption | apply IH; assumption].
    + intros H. inversion H as [|? ? H1 H2]; subst.
      apply seams_nil_iff in H1. apply IH in H2. rewrite H1, H2. reflexivity.
Qed.

Lemma shared_by_nonneg (wall : wall_t) (k : Z) : 0 <= shared_by wall k.
Proof. unfold shared_by. lia. Qed.

Lemma shared_by_In (wall : wall_t) (k : Z) :
  In k (all_seams wall) <-> 1 <= shared_by wall k.
Proof. apply occurrences_In. Qed.

Lemma most_shared_seam_none (wall : wall_t) :
  all_seams wall = [] -> most_shared_seam wall = 1.
Proof.
  intros H. unfold most_shared_seam. rewrite count_all_seams_tally, H. reflexivity.
Qed.

Lemma most_shared_seam_first (wall : wall_t) :
  all_seams wall <> [] ->
  exists pre post,
    all_seams wall = pre ++ most_shared_seam wall :: post /\
    (forall k, shared_by wall k <= shared_by wall (most_shared_seam wall)) /\
    (forall k, In k pre -> shared_by wall k < shared_by wall (most_shared_seam wall)).
Proof.
  intros Hne. unfold most_shared_seam. rewrite count_all_seams_tally.
  set (d := tally (all_seams wall) []).
  assert (Hf : forall k, dict_get d k 0 = shared_by wall k).
  { intros k. unfold d. rewrite tally_get. reflexivity. }
  destruct (tally_keys_ext (all_seams wall) []) as (ext & _ & _ & Hin). fold d in Hin.
  destruct (map fst d) as [|k0 keys] eqn:Hkeys.
  { destruct (all_seams wall) as [|a l]; [congruence|]. destruct (Hin a). left. reflexivity. }
  cbv zeta.
  destruct (max_by_key_first (fun k => dict_get d k 0) keys k0)
    as (l1 & l2 & Heq & H1 & H2 & _).
  set (col := max_by_key (fun k => dict_get d k 0) k0 keys) in *.
  pose proof Heq as Hkeys'. rewrite <- Hkeys in Hkeys'. unfold d in Hkeys'.
  destruct (tally_keys_first _ _ _ _ _ Hkeys') as (pre & post & Hsplit & Hpre); [intros []|].
  exists pre, post. split; [assumption|]. split.
  - intros k. rewrite <- !Hf.
    destruct (in_dec Z.eq_dec k (all_seams wall)) as [Hk|Hk].
    + apply Hin in Hk. rewrite Heq in Hk. apply in_app_or in Hk.
      destruct Hk as [Hk | [<- | Hk]]; [apply H1 in Hk; lia | lia | apply H2 in Hk; assumption].
    + rewrite !Hf. assert (H0 : shared_by wall k = 0).
      { pose proof (shared_by_In wall k) as HI. pose proof (shared_by_nonneg wall k).
        destruct (Z.eq_dec (shared_by wall k) 0); [assumption|].
        exfalso. apply Hk, HI. lia. }
      rewrite H0. apply shared_by_nonneg.
  - intros k Hk. rewrite <- !Hf. apply H1. apply Hpre. assumption.
Qed.

(** ** The longest row is a row *)

Lemma fold_max_attained (l : list Z) :
  forall x, fold_left Z.max l x = x \/ In (fold_left Z.max l x) l.
Proof.
  induction l as [|h t IH]; intros x; simpl.
  - left. reflexivity.
  - destruct (IH (Z.max x h)) as [H|H].
    + rewrite H. destruct (Z.max_spec x h) as [[_ ->] | [_ ->]]; auto.
    + right. right. assumption.
Qed.

Lemma get_max_row_len_attained (wall : wall_t) (M : Z) :
  get_max_row_len wall = Ok M -> exists row, In row wall /\ row_len row = M.
Proof.
  rewrite get_max_row_len_closed.
  destruct wall as [|row rest]; simpl; [discriminate|].
  intros H. injection H as <-.
  destruct (fold_max_attained (map row_len rest) (row_len row)) as [H|H].
  - exists row. split; [left; reflexivity | symmetry; assumption].
  - apply in_map_iff in H. destruct H as (r & Hr & Hin).
    exists r. split; [right; assumption | assumption].
Qed.

Lemma rectangular_max (n : Z) (wall : wall_t) :
  wall <> [] -> rectangular n wall -> get_max_row_len wall = Ok n.
Proof.
  intros Hne Hrect. destruct (get_max_row_len_total wall Hne) as [M HM].
  rewrite HM. f_equal.
  destruct (get_max_row_len_attained wall M HM) as (row & Hin & <-).
  unfold rectangular in Hrect. rewrite Forall_forall in Hrect. auto.
Qed.

Lemma Forall2_In_l {A B} (R : A -> B -> Prop) (l1 : list A) (l2 : list B) (a : A) :
  Forall2 R l1 l2 -> In a l1 -> exists b, In b l2 /\ R a b.
Proof.
  induction 1 as [|x y l1 l2 Hxy _ IH]; intros Hin; [destruct Hin|].
  destruct Hin as [<- | Hin].
  - exists y. split; [left; reflexivity | assumption].
  - destruct (IH Hin) as (b & Hb & HR). exists b. split; [right; assumption | assumption].
Qed.

(** ** Rows only grow *)

Lemma extends_refl (row : list Z) : extends row row.
Proof. exists []. rewrite app_nil_r. split; [reflexivity | constructor]. Qed.

Lemma extends_trans (r1 r2 r3 : list Z) : extends r1 r2 -> extends r2 r3 -> extends r1 r3.
Proof.
  intros (b1 & -> & H1) (b2 & -> & H2). exists (b1 ++ b2).
  rewrite app_assoc. split; [reflexivity | apply Forall_app; split; assumption].
Qed.

Lemma Forall2_refl_on {A} (R : A -> A -> Prop) (l : list A) :
  (forall a, R a a) -> Forall2 R l l.
Proof. intros H. induction l; constructor; auto. Qed.

Lemma fill_wall_extends (total : Z) (wall : wall_t) (ds : draws)
  (wall' : wall_t) (ds' : draws) :
  fill_wall_with_bricks total false wall ds = Ok (wall', ds') ->
  Forall2 extends wall wall'.
Proof.
  intros H. apply fill_wall_no_shuffle in H.
  eapply Forall2_impl; [|exact H]. intros row row' (_ & _ & Hext). exact Hext.
Qed.

Lemma Forall2_extends_trans (w1 w2 w3 : wall_t) :
  Forall2 extends w1 w2 -> Forall2 extends w2 w3 -> Forall2 extends w1 w3.
Proof.
  intros H12 H23. pose proof (Forall2_compose _ _ _ _ _ H12 H23) as H.
  eapply Forall2_impl; [|exact H]. intros a c (b & Hab & Hbc).
  eapply extends_trans; eassumption.
Qed.

(** The run of normalize_wall, case by case. *)
Lemma normalize_wall_runs (wall : wall_t) (ds : draws) (wall' : wall_t) (ds' : draws) :
  normalize_wall wall ds = Ok (wall', ds') ->
  (is_valid wall = Ok true /\ wall' = wall /\ ds' = ds) \/
  (exists M,
      is_valid wall = Ok false /\ get_max_row_len wall = Ok M /\
      ((fill_wall_with_bricks M false wall ds = Ok (wall', ds') /\
        is_valid wall' = Ok true) \/
       (exists wall1 ds1 r extra,
           fill_wall_with_bricks M false wall ds = Ok (wall1, r :: ds1) /\
           is_valid wall1 = Ok false /\
           randint 3 max_extra_length r = Ok extra /\ 3 <= extra <= max_extra_length /\
           fill_wall_with_bricks (M + extra) false wall1 ds1 = Ok (wall', ds')))).
Proof.
  unfold normalize_wall. intros H.
  apply outcome_bind_Ok in H. destruct H as (valid & Hvalid & H).
  destruct valid.
  { left. injection H as <- <-. auto. }
  right.
  apply outcome_bind_Ok in H. destruct H as (M & HM & H).
  apply outcome_bind_Ok in H. destruct H as ([wall1 ds1] & Hfill1 & H).
  apply outcome_bind_Ok in H. destruct H as (valid1 & Hvalid1 & H).
  exists M. split; [assumption|]. split; [assumption|].
  destruct valid1; cbn [negb] in H.
  { left. injection H as <- <-. auto. }
  right.
  apply outcome_bind_Ok in H. destruct H as ([extra ds2] & Hextra & Hfill2).
  destruct ds1 as [|r ds1]; [discriminate Hextra|].
  unfold draw_randint in Hextra.
  destruct (randint 3 max_extra_length r) as [v| |] eqn:Hr;
    cbn [bind] in Hextra; try discriminate.
  injection Hextra as E1 E2. rewrite <- E1, <- E2 in Hfill2.
  exists wall1, ds1, r, v. apply randint_Ok in Hr as Hrange.
  split; [assumption|]. split; [assumption|]. split; [assumption|].
  split; [lia | assumption].
Qed.

Lemma normalize_wall_grows (wall : wall_t) (ds : draws) (wall' : wall_t) (ds' : draws) :
  normalize_wall wall ds = Ok (wall', ds') -> Forall2 extends wall wall'.
Proof.
  intros H. apply normalize_wall_runs in H.
  destruct H as [(_ & -> & _) | (M & _ & _ & [[Hfill _] | (wall1 & ds1 & r & extra & H1 & _ & _ & _ & H2)])].
  - apply Forall2_refl_on. apply extends_refl.
  - eapply fill_wall_extends; eassumption.
  - eapply Forall2_extends_trans; eapply fill_wall_extends; eassumption.
Qed.

Lemma normalize_wall_length (wall : wall_t) (ds : draws) (wall' : wall_t) (ds' : draws)
  (M : Z) :
  normalize_wall wall ds = Ok (wall', ds') ->
  get_max_row_len wall = Ok M ->
  exists L, wall' <> [] /\ rectangular L wall' /\
            (L = M \/ M + 3 <= L <= M + max_extra_length).
Proof.
  intros H HM. apply normalize_wall_runs in H.
  destruct H as [(Hv & -> & _) | (M' & _ & HM' & [[Hfill Hv] | (wall1 & ds1 & r & extra & H1 & _ & _ & Hextra & H2)])].
  - apply is_valid_rectangular in Hv. destruct Hv as (n & Hne & Hrect).
    exists n. split; [assumption|]. split; [assumption|]. left.
    rewrite (rectangular_max n wall Hne Hrect) in HM. congruence.
  - assert (M' = M) by congruence. subst M'.
    apply is_valid_rectangular in Hv. destruct Hv as (n & Hne & Hrect).
    exists n. split; [assumption|]. split; [assumption|]. left.
    (* the longest row was skipped by the pass *)
    destruct (get_max_row_len_attained wall M HM) as (row & Hin & Hlen).
    apply fill_wall_no_shuffle in Hfill.
    destruct (Forall2_In_l _ _ _ row Hfill Hin) as (row' & Hin' & (_ & Hskip & _)).
    rewrite Hskip in Hin' by (unfold row_len in Hlen; lia).
    unfold rectangular in Hrect. rewrite Forall_forall in Hrect.
    rewrite <- (Hrect row Hin'). assumption.
  - assert (M' = M) by congruence. subst M'.
    destruct (first_pass_lengths _ _ _ _ _ HM H1) as (_ & Hle & Hne).
    exists (M + extra). split; [|split].
    + apply fill_wall_filled in H2. eapply Forall2_nonempty; eauto.
    + eapply second_pass_lengths; [|exact Hle|exact H2]. lia.
    + right. lia.
Qed.

(** ** The answer of the search is a column that can be drawn *)

Lemma positive_row_len (row : list Z) :
  positive_row row -> row <> [] -> 3 <= row_len row.
Proof.
  intros Hpos Hne. destruct row as [|b row]; [congruence|].
  inversion Hpos as [|? ? Hb Hrest]; subst.
  pose proof (positive_row_count row Hrest).
  unfold row_len. rewrite sum_cons, len_cons. lia.
Qed.

Lemma most_shared_seam_inside (wall : wall_t) (n : Z) :
  wall <> [] -> rectangular n wall -> positive_wall wall ->
  Forall (fun row => row <> []) wall ->
  0 < most_shared_seam wall < n - 1.
Proof.
  intros Hne Hrect Hpos Hrows.
  unfold rectangular in Hrect. rewrite Forall_forall in Hrect.
  unfold positive_wall in Hpos. rewrite Forall_forall in Hpos.
  rewrite Forall_forall in Hrows.
  destruct (all_seams wall) as [|a l] eqn:Hseams.
  - rewrite (most_shared_seam_none wall Hseams).
    destruct wall as [|row rest]; [congruence|].
    assert (Hin : In row (row :: rest)) by (left; reflexivity).
    pose proof (positive_row_len row (Hpos row Hin) (Hrows row Hin)).
    rewrite (Hrect row Hin) in H. lia.
  - destruct (most_shared_seam_first wall) as (pre & post & Hsplit & _ & _).
    { rewrite Hseams. discriminate. }
    assert (Hin : In (most_shared_seam wall) (all_seams wall)).
    { rewrite Hsplit. apply in_or_app. right. left. reflexivity. }
    apply all_seams_In in Hin. destruct Hin as (row & Hrow & Hk).
    apply seams_bounds in Hk; [|apply Hpos; assumption].
    rewrite (Hrect row Hrow) in Hk. lia.
Qed.

Lemma extends_nonempty (wall wall' : wall_t) :
  Forall2 extends wall wall' ->
  Forall (fun row => row <> []) wall -> Forall (fun row => row <> []) wall'.
Proof.
  apply Forall2_Forall_r. intros row row' (bricks & -> & _) Hne.
  destruct row; [congruence | discriminate].
Qed.

Lemma find_min_wall (wall : wall_t) (ds : draws) (col : Z) (wall' : wall_t) (ds' : draws) :
  find_min_brick_crossline_position wall ds = Ok (col, wall', ds') ->
  positive_wall wall -> Forall (fun row => row <> []) wall ->
  col = most_shared_seam wall' /\ is_valid wall' = Ok true /\
  positive_wall wall' /\ Forall (fun row => row <> []) wall' /\
  Forall2 extends wall wall'.
Proof.
  intros H Hpos Hrows. apply find_min_Ok in H.
  destruct H as [-> [(Hv & -> & _) | (_ & Hnorm)]].
  - repeat split; try assumption. apply Forall2_refl_on. apply extends_refl.
  - pose proof (normalize_wall_grows _ _ _ _ Hnorm) as Hgrow.
    repeat split.
    + eapply normalize_wall_valid; eassumption.
    + eapply normalize_wall_positive; eassumption.
    + eapply extends_nonempty; eassumption.
    + assumption.
Qed.

(** ** Strings *)

Lemma string_length_append (s1 s2 : string) :
  String.length (s1 ++ s2) = (String.length s1 + String.length s2)%nat.
Proof. induction s1 as [|c s1 IH]; simpl; [reflexivity | rewrite IH; reflexivity]. Qed.

Lemma string_append_assoc (s1 s2 s3 : string) :
  ((s1 ++ s2) ++ s3)%string = (s1 ++ (s2 ++ s3))%string.
Proof. induction s1 as [|c s1 IH]; simpl; [reflexivity | rewrite IH; reflexivity]. Qed.

Lemma string_append_nil_r (s : string) : (s ++ "")%string = s.
Proof. induction s as [|c s IH]; simpl; [reflexivity | rewrite IH; reflexivity]. Qed.

Lemma str_repeat_char_S (c : ascii) (n : nat) :
  str_repeat (String c EmptyString) (S n) = String c (str_repeat (String c EmptyString) n).
Proof. reflexivity. Qed.

Lemma str_repeat_char_length (c : ascii) (n : nat) :
  String.length (str_repeat (String c EmptyString) n) = n.
Proof. induction n as [|n IH]; simpl; [reflexivity | rewrite IH; reflexivity]. Qed.

Lemma substring_0_0 (s : string) : substring 0 0 s = EmptyString.
Proof. destruct s; reflexivity. Qed.

Lemma substring_all (s : string) : substring 0 (String.length s) s = s.
Proof. induction s as [|c s IH]; simpl; [reflexivity | rewrite IH; reflexivity]. Qed.

Lemma substring_repeat_front (c : ascii) (t : string) (k : nat) :
  forall m, (m <= k)%nat ->
    substring 0 m (str_repeat (String c EmptyString) k ++ t)
    = str_repeat (String c EmptyString) m.
Proof.
  induction k as [|k IH]; intros m Hm.
  - assert (m = O) by lia. subst m. apply substring_0_0.
  - destruct m as [|m]; [apply substring_0_0|].
    rewrite !str_repeat_char_S. simpl. rewrite IH by lia. reflexivity.
Qed.

Lemma substring_repeat_skip (c : ascii) (t : string) (k : nat) :
  forall p m, (p <= k)%nat ->
    substring p m (str_repeat (String c EmptyString) k ++ t)
    = substring 0 m (str_repeat (String c EmptyString) (k - p) ++ t).
Proof.
  induction k as [|k IH]; intros p m Hp.
  - assert (p = O) by lia. subst p. reflexivity.
  - destruct p as [|p]; [reflexivity|].
    rewrite str_repeat_char_S. simpl substring at 1. rewrite IH by lia. reflexivity.
Qed.

Lemma str_mul_length (c : ascii) (n : Z) :
  String.length (str_mul (String c EmptyString) n) = Z.to_nat n.
Proof. apply str_repeat_char_length. Qed.

Lemma substring_skip_char (p m : nat) (c : ascii) (s : string) :
  substring (S p) m (String c s) = substring p m s.
Proof. reflexivity. Qed.

Lemma substring_take_char (m : nat) (c : ascii) (s : string) :
  substring 0 (S m) (String c s) = String c (substring 0 m s).
Proof. reflexivity. Qed.

Lemma substring_repeat (c : ascii) (k m : nat) :
  (m <= k)%nat ->
  substring 0 m (str_repeat (String c EmptyString) k) = str_repeat (String c EmptyString) m.
Proof.
  intros H. pose proof (substring_repeat_front c "" k m H) as E.
  rewrite string_append_nil_r in E. exact E.
Qed.

(** The border without a crossline. *)
Lemma border_inner (n : Z) :
  2 <= n ->
  str_slice (str_mul "-" n) (Some 1) (Some (-1)) = str_mul "-" (n - 2).
Proof.
  intros Hn. unfold str_slice. rewrite str_mul_length.
  rewrite Z2Nat.id by lia.
  unfold clamp. change (1 <? 0) with false. change (-1 <? 0) with true. cbv iota.
  rewrite Z.min_l by lia. rewrite Z.max_l by lia.
  unfold str_mul.
  replace (Z.to_nat n) with (S (S (Z.to_nat (n - 2)))) by lia.
  replace (Z.to_nat (-1 + n - 1)) with (Z.to_nat (n - 2)) by lia.
  change (Z.to_nat 1) with 1%nat.
  rewrite str_repeat_char_S, substring_skip_char.
  apply substring_repeat. lia.
Qed.

Lemma border_length (n : Z) :
  2 <= n ->
  String.length ("+" ++ str_mul "-" (n - 2) ++ "+") = Z.to_nat n.
Proof.
  intros Hn. simpl. rewrite string_length_append, str_mul_length. simpl. lia.
Qed.

Lemma border_cut (n p : Z) (sign : string) :
  0 < p < n - 1 ->
  (str_slice ("+" ++ str_mul "-" (n - 2) ++ "+") None (Some p) ++ sign
   ++ str_slice ("+" ++ str_mul "-" (n - 2) ++ "+") (Some (p + 1)) None)%string
  = ("+" ++ str_mul "-" (p - 1) ++ sign ++ str_mul "-" (n - p - 2) ++ "+")%string.
Proof.
  intros Hp. unfold str_slice. rewrite border_length by lia.
  rewrite Z2Nat.id by lia. unfold clamp.
  destruct (p <? 0) eqn:E1; [apply Z.ltb_lt in E1; lia|].
  destruct (p + 1 <? 0) eqn:E2; [apply Z.ltb_lt in E2; lia|].
  rewrite !Z.min_l by lia. rewrite Z.sub_0_r.
  change ("+" ++ str_mul "-" (n - 2) ++ "+")%string
    with (String "+" (str_mul "-" (n - 2) ++ "+")).
  replace (Z.to_nat p) with (S (Z.to_nat (p - 1))) by lia.
  replace (Z.to_nat (p + 1)) with (S (Z.to_nat p)) by lia.
  rewrite substring_take_char, substring_skip_char.
  unfold str_mul.
  rewrite substring_repeat_front by lia.
  rewrite substring_repeat_skip by lia.
  replace (Z.to_nat (n - 2) - Z.to_nat p)%nat with (Z.to_nat (n - p - 2)) by lia.
  replace (Z.to_nat (n - (p + 1))) with
    (String.length (str_repeat "-" (Z.to_nat (n - p - 2)) ++ "+")).
  2:{ rewrite string_length_append, str_repeat_char_length. simpl. lia. }
  rewrite substring_all. reflexivity.
Qed.

Lemma draw_wall_border_plain (wall : wall_t) (sign : string) (n : Z) :
  get_max_row_len wall = Ok n -> 2 <= n ->
  draw_wall_border wall sign None
  = ([("+" ++ str_mul "-" (n - 2) ++ "+")%string], Ok tt).
Proof.
  intros HM Hn. unfold draw_wall_border. rewrite HM, border_inner by assumption.
  reflexivity.
Qed.

Lemma draw_wall_border_cross (wall : wall_t) (sign : string) (n p : Z) :
  get_max_row_len wall = Ok n -> 0 < p < n - 1 ->
  draw_wall_border wall sign (Some p)
  = ([("+" ++ str_mul "-" (p - 1) ++ sign ++ str_mul "-" (n - p - 2) ++ "+")%string], Ok tt).
Proof.
  intros HM Hp. unfold draw_wall_border. rewrite HM, border_inner by lia.
  rewrite border_cut by assumption. reflexivity.
Qed.

(** ** Putting the sign into a line *)

Lemma put_sign_app (c : ascii) (p : Z) (s1 s2 : string) :
  forall col,
    put_sign c p col (s1 ++ s2)
    = (put_sign c p col s1 ++ put_sign c p (col + Z.of_nat (String.length s1)) s2)%string.
Proof.
  induction s1 as [|a s1 IH]; intros col; simpl.
  - rewrite Z.add_0_r. reflexivity.
  - rewrite IH. do 3 f_equal. lia.
Qed.

Lemma put_sign_outside (c : ascii) (p : Z) (s : string) :
  forall col,
    p < col \/ col + Z.of_nat (String.length s) <= p ->
    put_sign c p col s = s.
Proof.
  induction s as [|a s IH]; intros col H; simpl; [reflexivity|].
  simpl String.length in H.
  destruct (col =? p) eqn:E; [apply Z.eqb_eq in E; lia|].
  simpl. rewrite IH by lia. reflexivity.
Qed.

Lemma put_sign_length (c : ascii) (p : Z) (s : string) :
  forall col, String.length (put_sign c p col s) = String.length s.
Proof. induction s as [|a s IH]; intros col; simpl; [reflexivity | rewrite IH; reflexivity]. Qed.

Lemma string_append_char (s : string) (a : ascii) (t : string) :
  ((s ++ String a EmptyString) ++ t)%string = (s ++ String a t)%string.
Proof. rewrite string_append_assoc. reflexivity. Qed.

(** ** The row lines *)

Lemma cross_cells_put (c : ascii) (p : Z) (n : nat) :
  forall row_str pos,
    cross_cells n (String c EmptyString) p row_str pos
    = ((row_str ++ put_sign c p pos (str_repeat " " n))%string, pos + Z.of_nat n).
Proof.
  induction n as [|n IH]; intros row_str pos.
  - simpl. rewrite string_append_nil_r, Z.add_0_r. reflexivity.
  - cbn [cross_cells]. rewrite IH. rewrite str_repeat_char_S. cbn [put_sign].
    f_equal; [|lia].
    destruct (pos =? p); simpl; apply string_append_char.
Qed.

Lemma wall_row_fold (row : list Z) :
  forall acc,
    fold_left (fun row_str brick_length =>
                 (row_str ++ str_mul " " brick_length ++ "|")%string) row acc
    = (acc ++ fold_left (fun row_str brick_length =>
                 (row_str ++ str_mul " " brick_length ++ "|")%string) row "")%string.
Proof.
  induction row as [|b row IH]; intros acc; simpl.
  - rewrite string_append_nil_r. reflexivity.
  - rewrite IH. rewrite (IH (str_mul " " b ++ "|")%string).
    rewrite !string_append_assoc. reflexivity.
Qed.

Lemma cross_bricks_put (c : ascii) (p : Z) (row : list Z) :
  forall row_str pos,
    pos = Z.of_nat (String.length row_str) ->
    cross_bricks row (String c EmptyString) p row_str pos
    = (row_str ++ put_sign c p pos
         (fold_left (fun row_str brick_length =>
                       (row_str ++ str_mul " " brick_length ++ "|")%string) row ""))%string.
Proof.
  induction row as [|b row IH]; intros row_str pos Hpos.
  - simpl. rewrite string_append_nil_r. reflexivity.
  - cbn [cross_bricks]. rewrite cross_cells_put. rewrite IH.
    2:{ rewrite !string_length_append, put_sign_length, str_repeat_char_length.
        simpl. lia. }
    cbn [fold_left].
    change ("" ++ str_mul " " b ++ "|")%string with (str_mul " " b ++ "|")%string.
    rewrite (wall_row_fold row (str_mul " " b ++ "|")).
    rewrite !put_sign_app. rewrite !string_length_append, str_mul_length.
    unfold str_mul. rewrite !string_append_assoc. do 2 f_equal.
    cbn [put_sign String.length]. rewrite andb_false_r. simpl append.
    do 2 f_equal. lia.
Qed.

Lemma cross_row_put (c : ascii) (p : Z) (row : list Z) :
  cross_bricks row (String c EmptyString) p "|" 1 = put_sign c p 0 (wall_row_str row).
Proof.
  rewrite cross_bricks_put by reflexivity.
  unfold wall_row_str. rewrite (wall_row_fold row "|"). simpl.
  rewrite andb_false_r. reflexivity.
Qed.

(** ** The pictures *)

Lemma str_repeat_add (s : string) (a b : nat) :
  str_repeat s (a + b) = (str_repeat s a ++ str_repeat s b)%string.
Proof.
  induction a as [|a IH]; simpl; [reflexivity|].
  rewrite IH, string_append_assoc. reflexivity.
Qed.

Lemma border_put_sign (c : ascii) (n p : Z) :
  0 < p < n - 1 ->
  put_sign c p 0 ("+" ++ str_mul "-" (n - 2) ++ "+")
  = ("+" ++ str_mul "-" (p - 1) ++ String c EmptyString
       ++ str_mul "-" (n - p - 2) ++ "+")%string.
Proof.
  intros Hp. unfold str_mul.
  replace (Z.to_nat (n - 2)) with (Z.to_nat (p - 1) + S (Z.to_nat (n - p - 2)))%nat by lia.
  rewrite str_repeat_add, str_repeat_char_S.
  change ("+" ++ ?x)%string with (String "+" x).
  cbn [put_sign].
  destruct (0 =? p) eqn:E0; [apply Z.eqb_eq in E0; lia|]. cbn [andb].
  rewrite string_append_assoc, put_sign_app, str_repeat_char_length.
  rewrite put_sign_outside by (rewrite str_repeat_char_length; lia).
  simpl append at 2. cbn [put_sign].
  replace (0 + 1 + Z.of_nat (Z.to_nat (p - 1)) =? p) with true
    by (symmetry; apply Z.eqb_eq; lia).
  cbn [andb]. change (negb ("-" =? "|")%char) with true. cbv iota.
  rewrite put_sign_outside by lia. reflexivity.
Qed.

Lemma draw_wall_closed (wall : wall_t) (sign : string) (n : Z) :
  get_max_row_len wall = Ok n -> 2 <= n ->
  draw_wall wall sign
  = (("+" ++ str_mul "-" (n - 2) ++ "+")%string
       :: map wall_row_str wall ++ [("+" ++ str_mul "-" (n - 2) ++ "+")%string], Ok tt).
Proof.
  intros HM Hn. unfold draw_wall.
  rewrite (draw_wall_border_plain wall sign n HM Hn). reflexivity.
Qed.

Lemma draw_wall_crossline_closed (wall : wall_t) (c : ascii) (n p : Z) :
  get_max_row_len wall = Ok n -> 0 < p < n - 1 ->
  draw_wall_crossline wall (String c EmptyString) p
  = (map (put_sign c p 0)
       (("+" ++ str_mul "-" (n - 2) ++ "+")%string
          :: map wall_row_str wall ++ [("+" ++ str_mul "-" (n - 2) ++ "+")%string]),
     Ok tt).
Proof.
  intros HM Hp. unfold draw_wall_crossline.
  destruct (p <=? 0) eqn:E0; [apply Z.leb_le in E0; lia|].
  rewrite HM. cbn [bind].
  destruct (p >=? n - 1) eqn:E1; [apply Z.geb_le in E1; lia|].
  rewrite (draw_wall_border_cross wall _ n p HM Hp).
  cbn [map]. rewrite map_app, map_map. cbn [map].
  rewrite (border_put_sign c n p Hp).
  unfold and_then. cbn [fst snd]. f_equal. cbn [app]. f_equal. f_equal.
  apply map_ext. intros row. apply cross_row_put.
Qed.

Lemma row_tail_length (row : list Z) :
  Forall (fun b => 0 <= b) row ->
  Z.of_nat (String.length
              (fold_left (fun row_str brick_length =>
                            (row_str ++ str_mul " " brick_length ++ "|")%string) row ""%string))
  = sum row + len row.
Proof.
  induction 1 as [|b row Hb _ IH].
  - reflexivity.
  - cbn [fold_left]. rewrite wall_row_fold.
    rewrite !string_length_append, str_mul_length, sum_cons, len_cons.
    simpl String.length. lia.
Qed.

Lemma wall_row_str_length (row : list Z) :
  Forall (fun b => 0 <= b) row ->
  Z.of_nat (String.length (wall_row_str row)) = row_len row.
Proof.
  intros H. unfold wall_row_str. rewrite wall_row_fold.
  rewrite string_length_append. simpl String.length at 1.
  pose proof (row_tail_length row H). unfold row_len. lia.
Qed.

(** ** A second fill pass *)

Lemma for_rows_skip (W : Z) (wall : wall_t) (ds : draws) :
  Forall (fun row => W <= sum row + len row) wall ->
  for_rows (fill_row W) wall ds = Ok (wall, ds).
Proof.
  induction 1 as [|row wall Hrow _ IH]; simpl; [reflexivity|].
  rewrite fill_row_skips by assumption. cbn [bind]. rewrite IH. reflexivity.
Qed.

Lemma filled_is_full (W : Z) (row row' : list Z) :
  filled W row row' -> W <= sum row' + len row'.
Proof.
  intros (mid & (Hlt & Hge & _) & Hperm).
  rewrite <- (sum_perm _ _ Hperm). unfold len. rewrite <- (Permutation_length Hperm).
  fold (len mid).
  destruct (Z.lt_ge_cases (sum row + len row) W) as [Hc|Hc].
  - rewrite (Hlt Hc). lia.
  - rewrite (Hge Hc). assumption.
Qed.

Lemma fill_wall_again (total : Z) (shuffle_rows : bool) (wall : wall_t) (ds : draws)
  (wall' : wall_t) (ds' : draws) :
  fill_wall_with_bricks total shuffle_rows wall ds = Ok (wall', ds') ->
  forall ds2, fill_wall_with_bricks total false wall' ds2 = Ok (wall', ds2).
Proof.
  intros H ds2. apply fill_wall_filled in H.
  unfold fill_wall_with_bricks. rewrite for_rows_skip; [reflexivity|].
  assert (Hall : Forall (fun _ : list Z => True) wall) by (apply Forall_forall; auto).
  eapply Forall2_Forall_r; [|exact H|exact Hall].
  intros row row' Hf _. eapply filled_is_full. exact Hf.
Qed.

(** ** Shuffling a row *)

Lemma shuffle_from_draws (i : nat) :
  forall x ds,
    ((i <= List.length ds)%nat ->
     exists x', shuffle_from i x ds = Ok (x', skipn i ds)) /\
    ((List.length ds < i)%nat -> shuffle_from i x ds = Starved).
Proof.
  induction i as [|i IH]; intros x ds.
  - split; [intros _; exists x; reflexivity | lia].
  - destruct ds as [|r ds]; simpl List.length.
    + split; [lia | reflexivity].
    + change (shuffle_from (S i) x (r :: ds))
        with (shuffle_from i (swap x (S i) (Z.to_nat (r mod Z.of_nat (S i + 1)))) ds).
      destruct (IH (swap x (S i) (Z.to_nat (r mod Z.of_nat (S i + 1)))) ds) as [H1 H2].
      split; intros H; [apply H1 | apply H2]; lia.
Qed.

Lemma shuffle_single (b : Z) (ds : draws) : shuffle [b] ds = Ok ([b], ds).
Proof. reflexivity. Qed.

(** ** Rows of one brick *)

Lemma fill_row_one_brick (W : Z) (r : Z) (ds : draws) :
  1 <= W <= 3 -> fill_row W [] (r :: ds) = Ok ([W], ds).
Proof.
  intros HW. rewrite fill_row_as_loop. change (sum [] + len (@nil Z)) with 0.
  rewrite fill_loop_step by lia.
  destruct ((W - 1 <=? 1 + r mod W) && (1 + r mod W <=? W) && (0 =? 0)); [reflexivity|].
  destruct (W - 0 <=? 3) eqn:E; [|apply Z.leb_gt in E; lia].
  rewrite Z.sub_0_r. reflexivity.
Qed.

Lemma fill_rows_one_brick (W : Z) (used : draws) :
  1 <= W <= 3 ->
  forall rest,
    for_rows (fill_row W) (map (fun _ => []) used) (used ++ rest)
    = Ok (map (fun _ => [W]) used, rest).
Proof.
  intros HW. induction used as [|r used IH]; intros rest; simpl; [reflexivity|].
  rewrite fill_row_one_brick by assumption. cbn [bind]. rewrite IH. reflexivity.
Qed.

Lemma shuffle_rows_one_brick (W : Z) (n : nat) (ds : draws) :
  for_rows shuffle (repeat [W] n) ds = Ok (repeat [W] n, ds).
Proof.
  induction n as [|n IH]; cbn [repeat for_rows]; [reflexivity|].
  rewrite shuffle_single. cbn [bind]. rewrite IH. reflexivity.
Qed.

Lemma map_const_repeat {A B} (b : B) (l : list A) :
  map (fun _ => b) l = repeat b (List.length l).
Proof. induction l as [|a l IH]; simpl; [reflexivity | rewrite IH; reflexivity]. Qed.

Lemma create_wall_small (g : list (list pyobj)) (n L : Z) (used rest : draws) :
  forallb (fun row => forallb isinstance_int row) g = true ->
  1 <= n -> 3 <= L <= 5 -> List.length used = Z.to_nat n ->
  create_wall (Some g) (Some n) (Some L) (used ++ rest)
  = Ok (repeat [L - 2] (Z.to_nat n), rest).
Proof.
  intros Hg Hn HL Hused. unfold create_wall. cbn [bind].
  destruct (n <? 1) eqn:En; [apply Z.ltb_lt in En; lia|].
  destruct (L <? 3) eqn:EL; [apply Z.ltb_lt in EL; lia|].
  unfold wall_setter. rewrite Hg. cbn [negb bind].
  unfold fill_wall_with_bricks.
  assert (Hrows : map (fun _ : Z => @nil Z) (range 0 n) = map (fun _ => []) used).
  { rewrite !map_const_repeat. f_equal. unfold range.
    rewrite length_map, length_seq. lia. }
  rewrite Hrows, fill_rows_one_brick by lia. cbn [bind].
  rewrite map_const_repeat, Hused. apply shuffle_rows_one_brick.
Qed.

(** ** Errors of create_wall *)

Lemma empty_rows_positive (n : Z) :
  positive_wall (map (fun _ : Z => @nil Z) (range 0 n)).
Proof. apply Forall_map. apply Forall_forall. intros x _. constructor. Qed.

Lemma create_wall_raises (g : option (list (list pyobj))) (n L : Z) (ds : draws) (e : exn) :
  create_wall g (Some n) (Some L) ds = Raise e ->
  (n < 1 /\ e = ValueError_rows) \/
  (1 <= n /\ L < 3 /\ e = ValueError_row_length) \/
  (1 <= n /\ 3 <= L /\ g = None /\ e = NameError_wall) \/
  (1 <= n /\ 3 <= L /\ e = TypeError_wall /\
   exists w, g = Some w /\ forallb (fun row => forallb isinstance_int row) w = false).
Proof.
  unfold create_wall. cbn [bind].
  destruct (n <? 1) eqn:En.
  { apply Z.ltb_lt in En. intros H. injection H as <-. left. auto. }
  apply Z.ltb_ge in En.
  destruct (L <? 3) eqn:EL.
  { apply Z.ltb_lt in EL. intros H. injection H as <-. right. left. auto. }
  apply Z.ltb_ge in EL.
  unfold wall_setter. destruct g as [w|].
  - destruct (forallb (fun row => forallb isinstance_int row) w) eqn:Hw; cbn [negb bind].
    + intros H. exfalso. revert H. apply fill_wall_no_raise. apply empty_rows_positive.
    + intros H. injection H as <-. right. right. right. repeat split; eauto.
  - cbn [bind]. intros H. injection H as <-. right. right. left. auto.
Qed.

Lemma create_wall_rows_error (g : option (list (list pyobj))) (n : Z)
  (row_length : option Z) (ds : draws) :
  n < 1 -> create_wall g (Some n) row_length ds = Raise ValueError_rows.
Proof.
  intros Hn. unfold create_wall. cbn [bind].
  destruct (n <? 1) eqn:En; [reflexivity | apply Z.ltb_ge in En; lia].
Qed.

Lemma create_wall_length_error (g : option (list (list pyobj))) (n L : Z) (ds : draws) :
  1 <= n -> L < 3 -> create_wall g (Some n) (Some L) ds = Raise ValueError_row_length.
Proof.
  intros Hn HL. unfold create_wall. cbn [bind].
  destruct (n <? 1) eqn:En; [apply Z.ltb_lt in En; lia|].
  destruct (L <? 3) eqn:EL; [reflexivity | apply Z.ltb_ge in EL; lia].
Qed.

Lemma create_wall_name_error (n L : Z) (ds : draws) :
  1 <= n -> 3 <= L -> create_wall None (Some n) (Some L) ds = Raise NameError_wall.
Proof.
  intros Hn HL. unfold create_wall. cbn [bind].
  destruct (n <? 1) eqn:En; [apply Z.ltb_lt in En; lia|].
  destruct (L <? 3) eqn:EL; [apply Z.ltb_lt in EL; lia|]. reflexivity.
Qed.

(** ** The constructor *)

Lemma BrickWall_init_value (g : option (list (list pyobj))) (value : list (list pyobj))
  (ds : draws) :
  BrickWall_init g (Some value) ds =
  match g with
  | None => Raise NameError_wall
  | Some w =>
      if forallb (fun row => forallb isinstance_int row) w then Ok (value, ds)
      else Raise TypeError_wall
  end.
Proof.
  unfold BrickWall_init, wall_setter. destruct g as [w|]; [|reflexivity].
  destruct (forallb _ w); reflexivity.
Qed.

Lemma BrickWall_init_default (g : option (list (list pyobj))) (ds : draws)
  (m : list (list pyobj)) (ds' : draws) :
  BrickWall_init g None ds = Ok (m, ds') ->
  exists wall n L,
    m = map (map PyInt) wall /\
    1 <= n <= max_rows_number /\ 10 <= L <= max_row_length_cap /\
    len wall = n /\ rectangular L wall /\ positive_wall wall /\
    is_valid wall = Ok true.
Proof.
  unfold BrickWall_init. intros H.
  apply outcome_bind_Ok in H. destruct H as ([wall d] & Hcreate & H).
  injection H as <- <-.
  apply create_wall_rectangular in Hcreate.
  destruct Hcreate as (n & L & Hn & HL & Hn1 & HL3 & Hlen & Hrect & Hpos).
  exists wall, n, L. repeat split; try assumption; try lia.
  apply rectangular_is_valid with (n := L); [|assumption].
  apply len_pos_nonempty. lia.
Qed.

(** ** Further properties: unique_symbol *)

(** X1: find_first_unique returns the empty string exactly when every symbol
    of [s] occurs at least twice, and the one-symbol string [c] exactly when
    [c] occurs once in [s] and every symbol before it occurs at least
    twice. *)
Theorem find_first_unique_spec (s : str) (c : Z) :
  (find_first_unique s = [] <-> (forall x, In x s -> 2 <= occurrences s x)) /\
  (find_first_unique s = [c] <->
   exists pre post,
     s = pre ++ c :: post /\ occurrences s c = 1 /\
     Forall (fun x => 2 <= occurrences s x) pre).
Proof.
  split; [apply find_first_unique_none | apply find_first_unique_some].
Qed.

Lemma find_first_unique_spec_witness :
  find_first_unique [97; 98; 97; 99; 98] = [99].
Proof.
  apply (proj2 (find_first_unique_spec [97; 98; 97; 99; 98] 99)).
  exists [97; 98; 97], [98]. split; [reflexivity|]. split; [reflexivity|].
  repeat constructor; vm_compute; discriminate.
Defined.

Lemma occurrences_double (s : str) (x : Z) :
  occurrences (s ++ s) x = 2 * occurrences s x.
Proof. rewrite occurrences_app. lia. Qed.

(** X2: the result of find_first_unique is empty or one symbol of [s];
    applied to its own result it changes nothing, a string followed by a
    copy of itself has no unique symbol, and a string without repetition
    gives its first symbol. *)
Theorem find_first_unique_composes (s : str) :
  (find_first_unique s = [] \/ exists c, find_first_unique s = [c] /\ In c s) /\
  find_first_unique (find_first_unique s) = find_first_unique s /\
  find_first_unique (s ++ s) = [] /\
  (forall c rest, s = c :: rest -> NoDup s -> find_first_unique s = [c]).
Proof.
  split; [|split; [|split]].
  - destruct (find_first_unique_short s) as [H | (c & H & Hc)]; [left; assumption|].
    right. exists c. split; [assumption|]. apply occurrences_In. lia.
  - apply find_first_unique_again.
  - apply find_first_unique_none. intros x Hx.
    rewrite occurrences_double.
    assert (In x s) by (apply in_app_or in Hx; tauto).
    apply occurrences_In in H. lia.
  - intros c rest -> Hnd. apply find_first_unique_some.
    exists [], rest. split; [reflexivity|]. split; [|constructor].
    unfold occurrences. rewrite (proj1 (NoDup_count_occ' Z.eq_dec (c :: rest)) Hnd).
    + reflexivity.
    + left. reflexivity.
Qed.

Lemma find_first_unique_composes_witness :
  find_first_unique [120; 121; 122] = [120].
Proof.
  apply (proj2 (proj2 (proj2 (find_first_unique_composes [120; 121; 122]))) 120 [121; 122]).
  - reflexivity.
  - repeat constructor; simpl; intuition discriminate.
Defined.

(** X3: re.findall with the pattern of line 14 cuts the text into non-empty
    runs of class characters; joined, the runs are the class characters of
    the text in order; a non-class character ends a run, which is never
    split, and is itself dropped. *)
Theorem findall_runs (is_word : Z -> bool) (text : str) :
  Forall (fun w => w <> [] /\ Forall (fun c => in_class is_word c = true) w)
         (findall is_word text []) /\
  List.concat (findall is_word text []) = filter (in_class is_word) text /\
  (forall w c,
      w <> [] -> Forall (fun x => in_class is_word x = true) w ->
      in_class is_word c = false ->
      findall is_word (w ++ c :: text) [] = w :: findall is_word text []) /\
  (Forall (fun x => in_class is_word x = true) text -> text <> [] ->
   findall is_word text [] = [text]) /\
  (forall c, in_class is_word c = false ->
             findall is_word (c :: text) [] = findall is_word text []).
Proof.
  split; [|split; [|split; [|split]]].
  - apply findall_words. constructor.
  - apply findall_concat.
  - intros w c Hne Hw Hc. rewrite (findall_run is_word w Hw). simpl.
    rewrite Hc. destruct w; [congruence | reflexivity].
  - intros Hall Hne. pose proof (findall_run is_word text Hall [] []) as H.
    rewrite app_nil_r in H. rewrite H. simpl. destruct text; [congruence | reflexivity].
  - intros c Hc. simpl. rewrite Hc. reflexivity.
Qed.

Lemma findall_runs_witness :
  findall ascii_word [105; 116; 39; 115; 32; 97; 45; 98; 33] []
  = [105; 116; 39; 115] :: findall ascii_word [97; 45; 98; 33] [].
Proof.
  apply (proj1 (proj2 (proj2 (findall_runs ascii_word [97; 45; 98; 33])))
           [105; 116; 39; 115] 32).
  - discriminate.
  - repeat constructor.
  - reflexivity.
Defined.

(** X4: solution returns the empty string or one symbol; that symbol is a
    class character of the text, it is the first unique symbol of one of
    the words, and no other word has it as its first unique symbol. *)
Theorem solution_result (is_word : Z -> bool) (text : str) :
  solution is_word text = [] \/
  exists c word,
    solution is_word text = [c] /\
    In word (findall is_word text []) /\
    find_first_unique word = [c] /\
    In c text /\ in_class is_word c = true /\
    occurrences (List.concat (map find_first_unique (findall is_word text []))) c = 1.
Proof.
  destruct (solution_cases is_word text)
    as [H | (c & word & H & Hword & Hfirst & _ & Hin & Hclass)]; [left; assumption|].
  right. exists c, word. repeat split; try assumption.
  unfold solution in H.
  destruct (find_first_unique_short
              (List.concat (map find_first_unique (findall is_word text []))))
    as [E | (c0 & E & Hocc)]; rewrite E in H; [discriminate|].
  injection H as ->. assumption.
Qed.

(** X5: on a text without class characters solution returns the empty
    string, and on a text that is one run of class characters it returns
    the first unique symbol of the text. *)
Theorem solution_edges (is_word : Z -> bool) (text : str) :
  (Forall (fun c => in_class is_word c = false) text -> solution is_word text = []) /\
  (Forall (fun c => in_class is_word c = true) text ->
   solution is_word text = find_first_unique text).
Proof.
  split; intros H; unfold solution.
  - assert (Hwords : findall is_word text [] = []).
    { induction H as [|c text Hc _ IH]; simpl; [reflexivity|]. rewrite Hc. exact IH. }
    rewrite Hwords. reflexivity.
  - destruct text as [|c text]; [reflexivity|].
    pose proof (findall_run is_word (c :: text) H [] []) as Hrun.
    rewrite app_nil_r in Hrun. rewrite Hrun. simpl findall. cbn [map List.concat].
    rewrite app_nil_r. apply find_first_unique_again.
Qed.

Lemma solution_edges_witness :
  solution ascii_word [32; 33; 46] = [] /\
  solution ascii_word [97; 98; 97] = find_first_unique [97; 98; 97].
Proof.
  split.
  - apply (proj1 (solution_edges ascii_word [32; 33; 46])). repeat constructor.
  - apply (proj2 (solution_edges ascii_word [97; 98; 97])). repeat constructor.
Defined.

(** ** Further properties: row lengths and validity *)

(** X6: get_max_row_len raises ValueError on a wall without rows; otherwise
    it returns the derived length of one of the rows, and no row is
    longer. *)
Theorem get_max_row_len_spec (wall : wall_t) :
  (wall = [] -> get_max_row_len wall = Raise ValueError_max_empty) /\
  (wall <> [] ->
   exists M, get_max_row_len wall = Ok M /\
             (exists row, In row wall /\ row_len row = M) /\
             (forall row, In row wall -> row_len row <= M)).
Proof.
  split.
  - intros ->. reflexivity.
  - intros Hne. destruct (get_max_row_len_total wall Hne) as [M HM].
    exists M. split; [assumption|]. split.
    + apply get_max_row_len_attained. assumption.
    + apply get_max_row_len_bound in HM. destruct HM as [_ Hle].
      rewrite Forall_forall in Hle. exact Hle.
Qed.

Lemma get_max_row_len_spec_witness :
  exists M, get_max_row_len [[2]; [1; 1]; [1]] = Ok M /\
            (exists row, In row [[2]; [1; 1]; [1]] /\ row_len row = M) /\
            (forall row, In row [[2]; [1; 1]; [1]] -> row_len row <= M).
Proof.
  apply (proj2 (get_max_row_len_spec [[2]; [1; 1]; [1]])). discriminate.
Defined.

Lemma is_valid_false_iff (wall : wall_t) :
  wall <> [] ->
  (is_valid wall = Ok false <->
   exists row1 row2, In row1 wall /\ In row2 wall /\ row_len row1 <> row_len row2).
Proof.
  intros Hne. destruct wall as [|row rest]; [congruence|].
  rewrite is_valid_cons. split.
  - intros H. injection H as H.
    assert (Hex : exists r, In r rest /\ (row_len r =? row_len row) = false).
    { clear -H. induction rest as [|r rest IH]; simpl in H; [discriminate|].
      destruct (row_len r =? row_len row) eqn:E.
      - destruct (IH H) as (x & Hx & Hxe). exists x. split; [right; assumption | assumption].
      - exists r. split; [left; reflexivity | assumption]. }
    destruct Hex as (r & Hr & Hre). apply Z.eqb_neq in Hre.
    exists r, row. split; [right; assumption|]. split; [left; reflexivity | assumption].
  - intros (r1 & r2 & H1 & H2 & Hne12). f_equal.
    destruct (forallb (fun r => row_len r =? row_len row) rest) eqn:E; [|reflexivity].
    exfalso. rewrite forallb_forall in E.
    assert (Hall : forall r, In r (row :: rest) -> row_len r = row_len row).
    { intros r [<- | Hr]; [reflexivity | apply Z.eqb_eq; apply E; assumption]. }
    apply Hne12. rewrite (Hall r1 H1), (Hall r2 H2). reflexivity.
Qed.

(** X7: is_valid raises IndexError on a wall without rows; on any other
    wall it returns True exactly when all rows have one derived length and
    False exactly when two rows differ in length; a wall of one row is
    valid. *)
Theorem is_valid_spec (wall : wall_t) :
  (wall = [] -> is_valid wall = Raise IndexError_list) /\
  (wall <> [] ->
   (is_valid wall = Ok true <-> exists n, rectangular n wall) /\
   (is_valid wall = Ok false <->
    exists row1 row2, In row1 wall /\ In row2 wall /\ row_len row1 <> row_len row2)) /\
  (forall row, is_valid [row] = Ok true).
Proof.
  split; [|split].
  - intros ->. reflexivity.
  - intros Hne. split; [|apply is_valid_false_iff; assumption].
    split.
    + intros H. apply is_valid_rectangular in H. destruct H as (n & _ & H). eauto.
    + intros [n H]. eapply rectangular_is_valid; eassumption.
  - intros row. reflexivity.
Qed.

Lemma is_valid_spec_witness :
  is_valid [[3; 1]; [1; 3]; [2; 2]] = Ok true.
Proof.
  apply (proj1 (proj1 (proj2 (is_valid_spec [[3; 1]; [1; 3]; [2; 2]])) ltac:(discriminate))).
  exists 7. repeat constructor.
Defined.

(** ** Further properties: the packer *)

Lemma packed_row_len_if (W : Z) (row row' : list Z) :
  packed W row row' ->
  row_len row' = if row_len row <? W + 1 then W + 2 else row_len row.
Proof.
  intros H. apply packed_row_len in H. destruct H as [Hlt Hge].
  destruct (row_len row <? W + 1) eqn:E.
  - apply Z.ltb_lt in E. auto.
  - apply Z.ltb_ge in E. auto.
Qed.

(** X8: a completed fill_wall_with_bricks keeps the number of rows; every
    row is its old bricks followed by appended bricks of length at least 1
    (in some other order when shuffle_rows is set), and its derived length
    is the requested length if the old row was shorter than that by 2 or
    more, and the old length otherwise. *)
Theorem fill_wall_rows (total : Z) (shuffle_rows : bool) (wall : wall_t) (ds : draws)
  (wall' : wall_t) (ds' : draws) :
  fill_wall_with_bricks total shuffle_rows wall ds = Ok (wall', ds') ->
  List.length wall' = List.length wall /\
  Forall2 (fun row row' =>
             (exists bricks,
                 positive_row bricks /\ Permutation (row ++ bricks) row' /\
                 (shuffle_rows = false -> row' = row ++ bricks)) /\
             row_len row' = if row_len row <? total - 1 then total else row_len row)
          wall wall'.
Proof.
  intros H. split.
  - apply fill_wall_filled in H. symmetry. eapply Forall2_length. exact H.
  - destruct shuffle_rows.
    + apply fill_wall_filled in H. eapply Forall2_impl; [|exact H].
      intros row row' (mid & Hp & Hperm). split.
      * destruct Hp as (_ & _ & bricks & -> & Hb). exists bricks.
        split; [assumption|]. split; [assumption | discriminate].
      * rewrite <- (row_len_perm _ _ Hperm), (packed_row_len_if _ _ _ Hp).
        replace (total - 2 + 1) with (total - 1) by lia.
        replace (total - 2 + 2) with total by lia. reflexivity.
    + apply fill_wall_no_shuffle in H. eapply Forall2_impl; [|exact H].
      intros row row' Hp. split.
      * destruct Hp as (_ & _ & bricks & -> & Hb). exists bricks.
        split; [assumption|]. split; [apply Permutation_refl | reflexivity].
      * rewrite (packed_row_len_if _ _ _ Hp).
        replace (total - 2 + 1) with (total - 1) by lia.
        replace (total - 2 + 2) with total by lia. reflexivity.
Qed.

Lemma fill_wall_rows_witness :
  List.length [[3; 2]; [1; 2; 1]] = List.length [[2]; [1; 1]].
Proof.
  apply (proj1 (fill_wall_rows 8 true [[2]; [1; 1]] [0; 0; 0; 0; 0]
                  [[3; 2]; [1; 2; 1]] [] eq_refl)).
Defined.

(** X9: after a completed fill_wall_with_bricks, a second pass to the same
    length without shuffling changes no row and draws nothing. *)
Theorem fill_wall_twice (total : Z) (shuffle_rows : bool) (wall : wall_t) (ds : draws)
  (wall' : wall_t) (ds' : draws) :
  fill_wall_with_bricks total shuffle_rows wall ds = Ok (wall', ds') ->
  forall ds2, fill_wall_with_bricks total false wall' ds2 = Ok (wall', ds2).
Proof. apply fill_wall_again. Qed.

Lemma fill_wall_twice_witness :
  fill_wall_with_bricks 8 false [[3; 2]; [1; 2; 1]] [4; 5]
  = Ok ([[3; 2]; [1; 2; 1]], [4; 5]).
Proof.
  apply (fill_wall_twice 8 true [[2]; [1; 1]] [0; 0; 0; 0; 0] [[3; 2]; [1; 2; 1]] []).
  reflexivity.
Defined.

(** ** Further properties: generation and construction *)

(** X10: create_wall checks its arguments in order: a supplied rows_number
    below 1 raises the ValueError of line 143 whatever else is passed; then a
    supplied row_length below 3 raises the ValueError of line 149; with
    valid arguments the only errors left are those of the wall setter
    (NameError when the global name [wall] is unbound, TypeError when it
    holds a non-integer), and the packer itself never raises. *)
Theorem create_wall_errors (g : option (list (list pyobj))) (n L : Z) (ds : draws) :
  (n < 1 -> forall row_length,
      create_wall g (Some n) row_length ds = Raise ValueError_rows) /\
  (1 <= n -> L < 3 ->
   create_wall g (Some n) (Some L) ds = Raise ValueError_row_length) /\
  (1 <= n -> 3 <= L -> forall e,
      create_wall g (Some n) (Some L) ds = Raise e ->
      (g = None /\ e = NameError_wall) \/
      (e = TypeError_wall /\
       exists w, g = Some w /\ forallb (fun row => forallb isinstance_int row) w = false)) /\
  (1 <= n -> 3 <= L -> create_wall None (Some n) (Some L) ds = Raise NameError_wall).
Proof.
  split; [|split; [|split]].
  - intros Hn rl. apply create_wall_rows_error. assumption.
  - apply create_wall_length_error.
  - intros Hn HL e H. apply create_wall_raises in H.
    destruct H as [[H _] | [(_ & H & _) | [(_ & _ & Hg & He) | (_ & _ & He & Hw)]]];
      try lia; [left | right]; auto.
  - apply create_wall_name_error.
Qed.

Lemma create_wall_errors_witness :
  create_wall (Some []) (Some 0) (Some 1) [] = Raise ValueError_rows /\
  create_wall (Some []) (Some 2) (Some 2) [] = Raise ValueError_row_length /\
  create_wall None (Some 2) (Some 12) [1; 2] = Raise NameError_wall.
Proof.
  split; [|split].
  - apply (proj1 (create_wall_errors (Some []) 0 1 [])). lia.
  - apply (proj1 (proj2 (create_wall_errors (Some []) 2 2 []))); lia.
  - apply (proj2 (proj2 (proj2 (create_wall_errors None 2 12 [1; 2])))); lia.
Defined.

(** X11: for a row_length of 3, 4 or 5 the generated wall does not depend on
    the draws: with one draw per row, create_wall returns rows_number rows
    that each hold the single brick row_length - 2. *)
Theorem create_wall_short_rows (g : list (list pyobj)) (n L : Z) (used rest : draws) :
  forallb (fun row => forallb isinstance_int row) g = true ->
  1 <= n -> 3 <= L <= 5 -> List.length used = Z.to_nat n ->
  create_wall (Some g) (Some n) (Some L) (used ++ rest)
  = Ok (repeat [L - 2] (Z.to_nat n), rest).
Proof. apply create_wall_small. Qed.

Lemma create_wall_short_rows_witness :
  create_wall (Some [[PyInt 5]]) (Some 2) (Some 5) ([7; 9] ++ [4])
  = Ok (repeat [5 - 2] (Z.to_nat 2), [4]).
Proof.
  apply (create_wall_short_rows [[PyInt 5]] 2 5 [7; 9] [4]);
    [reflexivity | lia | lia | reflexivity].
Defined.

(** X13: BrickWall() without a matrix, when it returns, holds a generated
    wall of integers: between 1 and 10 rows of positive bricks, all of one
    derived length between 10 and 50, so the wall is valid. *)
Theorem BrickWall_init_generates (g : option (list (list pyobj))) (ds : draws)
  (m : list (list pyobj)) (ds' : draws) :
  BrickWall_init g None ds = Ok (m, ds') ->
  exists wall n L,
    m = map (map PyInt) wall /\
    1 <= n <= max_rows_number /\ 10 <= L <= max_row_length_cap /\
    len wall = n /\ rectangular L wall /\ positive_wall wall /\
    is_valid wall = Ok true.
Proof. apply BrickWall_init_default. Qed.

Lemma BrickWall_init_generates_witness :
  exists wall n L,
    [[PyInt 8]; [PyInt 8]] = map (map PyInt) wall /\
    1 <= n <= max_rows_number /\ 10 <= L <= max_row_length_cap /\
    len wall = n /\ rectangular L wall /\ positive_wall wall /\
    is_valid wall = Ok true.
Proof.
  apply (BrickWall_init_generates (Some []) [1; 0; 7; 7] [[PyInt 8]; [PyInt 8]] []).
  reflexivity.
Defined.

(** ** Further properties: normalisation and the search *)

(** X14: normalize_wall only appends bricks: when it returns, the wall has
    the same number of rows, every row is its old bricks followed by
    appended bricks of length at least 1, and the common derived length is
    the old longest length [M] or lies between [M + 3] and [M + 10]. *)
Theorem normalize_wall_grows_rows (wall : wall_t) (ds : draws)
  (wall' : wall_t) (ds' : draws) (M : Z) :
  normalize_wall wall ds = Ok (wall', ds') ->
  get_max_row_len wall = Ok M ->
  List.length wall' = List.length wall /\
  Forall2 extends wall wall' /\
  exists L, rectangular L wall' /\ (L = M \/ M + 3 <= L <= M + max_extra_length).
Proof.
  intros H HM. pose proof (normalize_wall_grows _ _ _ _ H) as Hgrow.
  split; [symmetry; eapply Forall2_length; exact Hgrow|].
  split; [assumption|].
  destruct (normalize_wall_length _ _ _ _ M H HM) as (L & _ & Hrect & HL).
  exists L. auto.
Qed.

Lemma normalize_wall_grows_rows_witness :
  List.length [[2; 3]; [1; 1; 2]] = List.length [[2]; [1; 1]] /\
  Forall2 extends [[2]; [1; 1]] [[2; 3]; [1; 1; 2]] /\
  exists L, rectangular L [[2; 3]; [1; 1; 2]] /\ (L = 5 \/ 5 + 3 <= L <= 5 + max_extra_length).
Proof.
  apply (normalize_wall_grows_rows [[2]; [1; 1]] [0; 0; 0] [[2; 3]; [1; 1; 2]] [] 5);
    reflexivity.
Defined.

(** X15: when find_min_brick_crossline_position returns, the wall it leaves
    is valid (a wall that was valid is left as it was and nothing is drawn
    from the generator), and the answer is read off that wall: 1 if no row
    has two bricks; otherwise a seam column that no other column beats in
    the number of rows sharing it, and among such columns the one met first
    when the rows are read in order. *)
Theorem find_min_answer (wall : wall_t) (ds : draws) (col : Z)
  (wall' : wall_t) (ds' : draws) :
  find_min_brick_crossline_position wall ds = Ok (col, wall', ds') ->
  is_valid wall' = Ok true /\
  (is_valid wall = Ok true -> wall' = wall /\ ds' = ds) /\
  (Forall (fun row => (List.length row <= 1)%nat) wall' -> col = 1) /\
  (~ Forall (fun row => (List.length row <= 1)%nat) wall' ->
   exists pre post,
     all_seams wall' = pre ++ col :: post /\
     (forall k, shared_by wall' k <= shared_by wall' col) /\
     (forall k, In k pre -> shared_by wall' k < shared_by wall' col)).
Proof.
  intros H. apply find_min_Ok in H. destruct H as [-> Hcases].
  split; [|split; [|split]].
  - destruct Hcases as [(Hv & -> & _) | (_ & Hnorm)]; [assumption|].
    eapply normalize_wall_valid; eassumption.
  - intros Hv. destruct Hcases as [(_ & -> & ->) | (Hf & _)]; [auto | congruence].
  - intros Hone. apply most_shared_seam_none. apply all_seams_nil_iff. assumption.
  - intros Hsome. apply most_shared_seam_first.
    intros Hnil. apply Hsome. apply all_seams_nil_iff. assumption.
Qed.

Lemma find_min_answer_witness :
  is_valid demo_wall = Ok true /\
  exists pre post,
    all_seams demo_wall = pre ++ 12 :: post /\
    (forall k, shared_by demo_wall k <= shared_by demo_wall 12) /\
    (forall k, In k pre -> shared_by demo_wall k < shared_by demo_wall 12).
Proof.
  destruct (find_min_answer demo_wall [] 12 demo_wall [] eq_refl) as (Hv & _ & _ & Hmax).
  split; [exact Hv|]. apply Hmax.
  intros H. inversion H as [|? ? H1 _]. simpl in H1. lia.
Defined.

(** X16: on a wall of positive bricks in which every row has a brick, the
    column returned by find_min_brick_crossline_position is always accepted
    by draw_wall_crossline on the wall the search leaves: it raises
    nothing and prints one line per row between two borders. *)
Theorem crossline_of_search_is_drawn (wall : wall_t) (ds : draws) (col : Z)
  (wall' : wall_t) (ds' : draws) (sign : string) :
  positive_wall wall -> Forall (fun row => row <> []) wall ->
  find_min_brick_crossline_position wall ds = Ok (col, wall', ds') ->
  (exists n, get_max_row_len wall' = Ok n /\ 0 < col < n - 1) /\
  exists lines,
    draw_wall_crossline wall' sign col = (lines, Ok tt) /\
    List.length lines = (List.length wall' + 2)%nat.
Proof.
  intros Hpos Hrows H.
  destruct (find_min_wall _ _ _ _ _ H Hpos Hrows) as (-> & Hv & Hpos' & Hrows' & _).
  apply is_valid_rectangular in Hv. destruct Hv as (n & Hne & Hrect).
  pose proof (rectangular_max n wall' Hne Hrect) as HM.
  pose proof (most_shared_seam_inside wall' n Hne Hrect Hpos' Hrows') as Hin.
  split; [exists n; auto|].
  destruct (draw_wall_crossline_cases wall' sign (most_shared_seam wall'))
    as [[_ [Hle | (n' & HM' & Hge)]] | [(_ & _ & Hnil) | (lines & Hdraw & Hlen & _)]].
  - lia.
  - rewrite HM in HM'. injection HM' as <-. lia.
  - congruence.
  - exists lines. auto.
Qed.

Lemma crossline_of_search_is_drawn_witness :
  (exists n, get_max_row_len [[2; 3]; [1; 1; 2]] = Ok n /\ 0 < 3 < n - 1) /\
  exists lines,
    draw_wall_crossline [[2; 3]; [1; 1; 2]] "x" 3 = (lines, Ok tt) /\
    List.length lines = (List.length [[2; 3]; [1; 1; 2]] + 2)%nat.
Proof.
  apply (crossline_of_search_is_drawn [[2]; [1; 1]] [0; 0; 0] 3 [[2; 3]; [1; 1; 2]] [] "x").
  - repeat (constructor; try lia).
  - repeat constructor; discriminate.
  - reflexivity.
Defined.

(** ** Further properties: drawing *)

(** X17: draw_wall_border raises, printing nothing, on a wall without rows;
    for a longest row length [n >= 2] it prints "+", [n - 2] dashes and "+",
    and with a crossline position [0 < p < n - 1] the crossing sign stands
    in place of the dash in column [p]. *)
Theorem draw_wall_border_line (wall : wall_t) (sign : string) (n p : Z) :
  (wall = [] -> forall pos,
      draw_wall_border wall sign pos = ([], Raise ValueError_max_empty)) /\
  (get_max_row_len wall = Ok n -> 2 <= n ->
   draw_wall_border wall sign None
   = ([("+" ++ str_mul "-" (n - 2) ++ "+")%string], Ok tt)) /\
  (get_max_row_len wall = Ok n -> 0 < p < n - 1 ->
   draw_wall_border wall sign (Some p)
   = ([("+" ++ str_mul "-" (p - 1) ++ sign ++ str_mul "-" (n - p - 2) ++ "+")%string],
      Ok tt)).
Proof.
  split; [|split].
  - intros -> pos. reflexivity.
  - apply draw_wall_border_plain.
  - apply draw_wall_border_cross.
Qed.

Lemma draw_wall_border_line_witness :
  draw_wall_border [[2; 3]; [1; 1; 2]] "x" (Some 3)
  = ([("+" ++ str_mul "-" (3 - 1) ++ "x" ++ str_mul "-" (8 - 3 - 2) ++ "+")%string], Ok tt).
Proof.
  apply (proj2 (proj2 (draw_wall_border_line [[2; 3]; [1; 1; 2]] "x" 8 3)));
    [reflexivity | lia].
Defined.

Lemma nonneg_row_len (row : list Z) :
  Forall (fun b => 0 <= b) row -> row <> [] -> 2 <= row_len row.
Proof.
  intros H Hne. pose proof (row_tail_length row H) as Hl.
  destruct row as [|b row]; [congruence|].
  inversion H as [|? ? Hb Hrest]; subst.
  pose proof (row_tail_length row Hrest) as Hr.
  unfold row_len. rewrite sum_cons, len_cons. lia.
Qed.

(** X18: draw_wall raises, printing nothing, on a wall without rows.  On a
    valid wall whose rows each hold a brick and whose bricks are not
    negative it prints the border, one line per row (a border sign, then
    each brick as that many spaces and a border sign) and the border again,
    and every printed line has the width of the wall. *)
Theorem draw_wall_picture (wall : wall_t) (sign : string) :
  (wall = [] -> draw_wall wall sign = ([], Raise ValueError_max_empty)) /\
  (is_valid wall = Ok true ->
   Forall (fun row => row <> [] /\ Forall (fun b => 0 <= b) row) wall ->
   exists n,
     get_max_row_len wall = Ok n /\
     draw_wall wall sign
     = (("+" ++ str_mul "-" (n - 2) ++ "+")%string
          :: map wall_row_str wall ++ [("+" ++ str_mul "-" (n - 2) ++ "+")%string], Ok tt) /\
     Forall (fun line => Z.of_nat (String.length line) = n) (fst (draw_wall wall sign))).
Proof.
  split.
  - intros ->. reflexivity.
  - intros Hv Hrows. apply is_valid_rectangular in Hv. destruct Hv as (n & Hne & Hrect).
    pose proof (rectangular_max n wall Hne Hrect) as HM.
    unfold rectangular in Hrect. rewrite Forall_forall in Hrect.
    rewrite Forall_forall in Hrows.
    assert (Hn : 2 <= n).
    { destruct wall as [|row rest]; [congruence|].
      assert (Hin : In row (row :: rest)) by (left; reflexivity).
      rewrite <- (Hrect row Hin). destruct (Hrows row Hin).
      apply nonneg_row_len; assumption. }
    exists n. split; [assumption|].
    rewrite (draw_wall_closed wall sign n HM Hn). split; [reflexivity|].
    cbn [fst]. constructor; [rewrite border_length by assumption; lia|].
    apply Forall_app. split.
    + apply Forall_map. apply Forall_forall. intros row Hrow.
      rewrite wall_row_str_length by (apply Hrows; assumption). auto.
    + constructor; [rewrite border_length by assumption; lia | constructor].
Qed.

Lemma draw_wall_picture_witness :
  exists n,
    get_max_row_len demo_wall = Ok n /\
    draw_wall demo_wall "x"
    = (("+" ++ str_mul "-" (n - 2) ++ "+")%string
         :: map wall_row_str demo_wall ++ [("+" ++ str_mul "-" (n - 2) ++ "+")%string], Ok tt) /\
    Forall (fun line => Z.of_nat (String.length line) = n) (fst (draw_wall demo_wall "x")).
Proof.
  apply (proj2 (draw_wall_picture demo_wall "x")).
  - reflexivity.
  - repeat (apply Forall_cons;
            [split; [discriminate | repeat (apply Forall_cons; [lia|]); apply Forall_nil]|]).
    apply Forall_nil.
Defined.

(** X19: for a one-character crossing sign and a position inside the wall,
    draw_wall_crossline prints the lines of draw_wall with the sign put in
    column [position] of every line, except where that column holds a brick
    border, which is kept; the lines keep their width. *)
Theorem draw_wall_crossline_picture (wall : wall_t) (c : ascii) (n position : Z)
  (sign : string) :
  get_max_row_len wall = Ok n -> 0 < position < n - 1 ->
  draw_wall_crossline wall (String c EmptyString) position
  = (map (put_sign c position 0) (fst (draw_wall wall sign)), Ok tt) /\
  map String.length (fst (draw_wall_crossline wall (String c EmptyString) position))
  = map String.length (fst (draw_wall wall sign)).
Proof.
  intros HM Hp.
  rewrite (draw_wall_crossline_closed wall c n position HM Hp).
  rewrite (draw_wall_closed wall sign n HM) by lia. cbn [fst].
  split; [reflexivity|].
  rewrite map_map. apply map_ext. intros line. apply put_sign_length.
Qed.

Lemma draw_wall_crossline_picture_witness :
  draw_wall_crossline [[2; 3]; [1; 1; 2]] "x" 4
  = (map (put_sign "x" 4 0) (fst (draw_wall [[2; 3]; [1; 1; 2]] "x")), Ok tt) /\
  map String.length (fst (draw_wall_crossline [[2; 3]; [1; 1; 2]] "x" 4))
  = map String.length (fst (draw_wall [[2; 3]; [1; 1; 2]] "x")).
Proof.
  apply (draw_wall_crossline_picture [[2; 3]; [1; 1; 2]] "x" 8 4 "x");
    [reflexivity | lia].
Defined.

Example crossline_picture_example :
  draw_wall_crossline [[2; 3]; [1; 1; 2]] "x" 4
  = ([ "+---x--+"; "|  |x  |"; "| | |  |"; "+---x--+" ]%string, Ok tt).
Proof. reflexivity. Qed.

(** ** Further properties: termination of the callers *)

Lemma positive_row_len_cases (row : list Z) :
  positive_row row -> row_len row = 1 \/ 3 <= row_len row.
Proof.
  intros H. destruct row as [|b row].
  - left. reflexivity.
  - right. apply positive_row_len; [assumption | discriminate].
Qed.

Lemma invalid_wall_is_long (wall : wall_t) (M : Z) :
  positive_wall wall -> is_valid wall = Ok false -> get_max_row_len wall = Ok M -> 3 <= M.
Proof.
  intros Hpos Hv HM.
  destruct (get_max_row_len_bound wall M HM) as [Hne Hle].
  apply (is_valid_false_iff wall Hne) in Hv.
  destruct Hv as (r1 & r2 & H1 & H2 & Hdiff).
  unfold positive_wall in Hpos. rewrite Forall_forall in Hpos, Hle.
  pose proof (positive_row_len_cases r1 (Hpos r1 H1)).
  pose proof (positive_row_len_cases r2 (Hpos r2 H2)).
  pose proof (Hle r1 H1). pose proof (Hle r2 H2). lia.
Qed.

Lemma normalize_wall_finishes (wall : wall_t) (s : nat -> Z) :
  wall <> [] -> positive_wall wall ->
  (forall W, 1 <= W -> keeps_fitting W s) ->
  exists n wall', forall rest,
    normalize_wall wall (segment s 0 n ++ rest) = Ok (wall', rest).
Proof.
  intros Hne Hpos Hfair. unfold normalize_wall.
  destruct (is_valid_total wall Hne) as [valid Hv]. rewrite Hv. cbn [bind].
  destruct valid.
  { exists O, wall. reflexivity. }
  destruct (get_max_row_len_total wall Hne) as [M HM]. rewrite HM. cbn [bind].
  pose proof (invalid_wall_is_long wall M Hpos Hv HM) as HM3.
  destruct (fill_wall_finishes M false wall s 0 HM3 (Hfair (M - 2) ltac:(lia)))
    as (n1 & wall1 & H1).
  assert (Hne1 : wall1 <> []).
  { specialize (H1 []). apply fill_wall_filled in H1. eapply Forall2_nonempty; eauto. }
  destruct (is_valid_total wall1 Hne1) as [valid1 Hv1].
  destruct valid1.
  { exists n1, wall1. intros rest. rewrite H1. cbn [bind]. rewrite Hv1. reflexivity. }
  pose proof (randint_value 3 max_extra_length (s n1) ltac:(unfold max_extra_length; lia))
    as Hextra.
  set (extra := 3 + s n1 mod (max_extra_length - 3 + 1)) in *.
  assert (Hrange : 3 <= extra <= max_extra_length) by (eapply randint_Ok; exact Hextra).
  destruct (fill_wall_finishes (M + extra) false wall1 s (S n1) ltac:(lia)
              (Hfair (M + extra - 2) ltac:(lia))) as (n2 & wall2 & H2).
  exists (n1 + S n2)%nat, wall2. intros rest.
  rewrite segment_add, <- app_assoc, H1. cbn [bind]. rewrite Hv1. cbn [bind negb].
  rewrite Nat.add_0_l, segment_S. cbn [app draw_randint].
  rewrite Hextra. cbn [bind]. apply H2.
Qed.

(** X20: on a wall of positive bricks with at least one row, normalize_wall
    terminates on every draw sequence that keeps fitting for every width
    (from any point on some draw still passes the test of line 123), and it
    then returns a valid wall. *)
Theorem normalize_wall_terminates_when_fitting (wall : wall_t) (s : nat -> Z) :
  wall <> [] -> positive_wall wall ->
  (forall W, 1 <= W -> keeps_fitting W s) ->
  exists n wall',
    normalize_wall wall (prefix s n) = Ok (wall', []) /\ is_valid wall' = Ok true.
Proof.
  intros Hne Hpos Hfair.
  destruct (normalize_wall_finishes wall s Hne Hpos Hfair) as (n & wall' & H).
  exists n, wall'. specialize (H []). rewrite app_nil_r in H.
  split; [exact H|]. eapply normalize_wall_valid. exact H.
Qed.

Lemma ones_keep_fitting (W : Z) : 1 <= W -> keeps_fitting W (fun _ => 0).
Proof.
  intros HW a count H. exists a, 1. split; [lia|]. split.
  - rewrite randint_value by assumption. reflexivity.
  - apply fits_spec. lia.
Defined.

Lemma normalize_wall_terminates_when_fitting_witness :
  exists n wall',
    normalize_wall [[2]; [1; 1]] (prefix (fun _ => 0) n) = Ok (wall', []) /\
    is_valid wall' = Ok true.
Proof.
  apply (normalize_wall_terminates_when_fitting [[2]; [1; 1]] (fun _ => 0)).
  - discriminate.
  - repeat (constructor; try lia).
  - exact ones_keep_fitting.
Defined.

Lemma create_wall_finishes (g : list (list pyobj)) (rows_number row_length : option Z)
  (s : nat -> Z) :
  forallb (fun row => forallb isinstance_int row) g = true ->
  match rows_number with Some n => 1 <= n | None => True end ->
  match row_length with Some L => 3 <= L | None => True end ->
  (forall W, 1 <= W -> keeps_fitting W s) ->
  exists n wall', forall rest,
    create_wall (Some g) rows_number row_length (segment s 0 n ++ rest) = Ok (wall', rest).
Proof.
  intros Hg Hrows Hlen Hfair. unfold create_wall.
  (* the number of rows *)
  assert (H1 : exists a rn, 1 <= rn /\ forall rest',
             match rows_number with
             | None => draw_randint 1 max_rows_number (segment s 0 a ++ rest')
             | Some k => Ok (k, segment s 0 a ++ rest')
             end = Ok (rn, rest')).
  { destruct rows_number as [k|].
    - exists O, k. split; [assumption | reflexivity].
    - exists 1%nat, (1 + s O mod (max_rows_number - 1 + 1)). split.
      + pose proof (Z.mod_pos_bound (s O) (max_rows_number - 1 + 1)
                      ltac:(unfold max_rows_number; lia)). lia.
      + intros rest'. cbn [segment seq map app draw_randint].
        rewrite randint_value by (unfold max_rows_number; lia). reflexivity. }
  destruct H1 as (a & rn & Hrn & H1).
  assert (H2 : exists b rl, 3 <= rl /\ forall rest',
             match row_length with
             | None => draw_randint 10 max_row_length_cap (segment s a b ++ rest')
             | Some k => Ok (k, segment s a b ++ rest')
             end = Ok (rl, rest')).
  { destruct row_length as [k|].
    - exists O, k. split; [assumption | reflexivity].
    - exists 1%nat, (10 + s a mod (max_row_length_cap - 10 + 1)). split.
      + pose proof (Z.mod_pos_bound (s a) (max_row_length_cap - 10 + 1)
                      ltac:(unfold max_row_length_cap; lia)). lia.
      + intros rest'. cbn [segment seq map app draw_randint].
        rewrite randint_value by (unfold max_row_length_cap; lia). reflexivity. }
  destruct H2 as (b & rl & Hrl & H2).
  destruct (fill_wall_finishes rl true (map (fun _ => []) (range 0 rn)) s (a + b)
              Hrl (Hfair (rl - 2) ltac:(lia))) as (n3 & wall' & H3).
  exists (a + (b + n3))%nat, wall'. intros rest.
  rewrite !segment_add, <- !app_assoc, Nat.add_0_l.
  rewrite H1. cbn [bind].
  destruct (rn <? 1) eqn:E1; [apply Z.ltb_lt in E1; lia|].
  rewrite H2. cbn [bind].
  destruct (rl <? 3) eqn:E2; [apply Z.ltb_lt in E2; lia|].
  unfold wall_setter. rewrite Hg. cbn [negb bind]. apply H3.
Qed.

(** X21: with the setter's check passing and valid arguments (supplied, or
    left to be drawn), create_wall terminates on every draw sequence that
    keeps fitting for every width, and it then returns a valid wall. *)
Theorem create_wall_terminates_when_fitting (g : list (list pyobj))
  (rows_number row_length : option Z) (s : nat -> Z) :
  forallb (fun row => forallb isinstance_int row) g = true ->
  match rows_number with Some n => 1 <= n | None => True end ->
  match row_length with Some L => 3 <= L | None => True end ->
  (forall W, 1 <= W -> keeps_fitting W s) ->
  exists n wall',
    create_wall (Some g) rows_number row_length (prefix s n) = Ok (wall', []) /\
    is_valid wall' = Ok true.
Proof.
  intros Hg Hrows Hlen Hfair.
  destruct (create_wall_finishes g rows_number row_length s Hg Hrows Hlen Hfair)
    as (n & wall' & H).
  exists n, wall'. specialize (H []). rewrite app_nil_r in H.
  split; [exact H|].
  apply create_wall_rectangular in H.
  destruct H as (k & L & _ & _ & Hk & _ & Hlenw & Hrect & _).
  apply rectangular_is_valid with (n := L); [|assumption].
  apply len_pos_nonempty. lia.
Qed.

Lemma create_wall_terminates_when_fitting_witness :
  exists n wall',
    create_wall (Some []) None (Some 12) (prefix (fun _ => 0) n) = Ok (wall', []) /\
    is_valid wall' = Ok true.
Proof.
  apply (create_wall_terminates_when_fitting [] None (Some 12) (fun _ => 0)).
  - reflexivity.
  - exact I.
  - simpl. lia.
  - exact ones_keep_fitting.
Defined.

(** ** Normalisation in two passes *)



